(** * Curius-enhanced: the order-statistic red-black tree and the link buffer

    A shallow embedding of [src/data_structures/order_statistic_red_black_tree.py]
    and [src/buffer.py], with the properties of the merge engine proved over it.

    Python objects live in a store indexed by addresses; the sentinel [_nil]
    is the object at address 0.  Python's [int] is [Z].  A [while] loop is a
    [Fixpoint] over a fuel argument which every public operation derives from
    the number of objects allocated so far; running out of fuel is the
    outcome [Diverge]. *)

From Stdlib Require Import ZArith Lia Bool.
From stdpp Require Import prelude strings gmap sorting.

Local Open Scope Z_scope.

(** ** Outcomes of a Python call *)

Inductive exn := IndexError | ValueError | TypeError | KeyError | StopIteration.

Inductive result (A : Type) : Type :=
| Ok (a : A)
| Raise (e : exn)
| Diverge.
Arguments Ok {A} a.
Arguments Raise {A} e.
Arguments Diverge {A}.

Definition rbind {A B} (m : result A) (f : A → result B) : result B :=
  match m with
  | Ok a => f a
  | Raise e => Raise e
  | Diverge => Diverge
  end.

Notation "x ←ᵣ m ; k" := (rbind m (λ x, k))
  (at level 20, m at level 100, k at level 200, right associativity,
   format "x  ←ᵣ  m ;  '/' k").
Notation "' p ←ᵣ m ; k" := (rbind m (λ p, k))
  (at level 20, p pattern, m at level 100, k at level 200, right associativity).

(** ** Python's rich comparisons on the key type

    The tree compares keys with [<], [<=], [>] and, inside the tuple
    comparison [(key, uid) < (current.key, current.uid)], with [==]. *)

Class PyOrder (K : Type) := {
  py_eq : K → K → bool;
  py_lt : K → K → bool;
  py_le : K → K → bool;
  py_gt : K → K → bool
}.

(** The comparisons behave as one strict total order on the keys that
    satisfy [ok]. *)
Record Lawful {K} `{PyOrder K} (ok : K → Prop) : Prop := {
  law_eq : ∀ a b, ok a → ok b → (py_eq a b = true ↔ a = b);
  law_irrefl : ∀ a, ok a → py_lt a a = false;
  law_trans : ∀ a b c, ok a → ok b → ok c →
    py_lt a b = true → py_lt b c = true → py_lt a c = true;
  law_total : ∀ a b, ok a → ok b → py_lt a b = true ∨ a = b ∨ py_lt b a = true;
  law_le : ∀ a b, ok a → ok b → py_le a b = py_lt a b || py_eq a b;
  law_gt : ∀ a b, ok a → ok b → py_gt a b = py_lt b a
}.

#[export] Instance Z_PyOrder : PyOrder Z :=
  {| py_eq := Z.eqb; py_lt := Z.ltb; py_le := Z.leb; py_gt := Z.gtb |}.

Module OSTree.

(** ** Nodes and the store *)

Definition RED : bool := true.
Definition BLACK : bool := false.

Definition addr := nat.
Definition nil : addr := 0%nat.

Record node (K : Type) := mkNode {
  n_key : option K;
  n_uid : Z;
  n_color : bool;
  n_size : Z;
  n_left : addr;
  n_right : addr;
  n_parent : addr
}.
Arguments mkNode {K}.
Arguments n_key {K}.
Arguments n_uid {K}.
Arguments n_color {K}.
Arguments n_size {K}.
Arguments n_left {K}.
Arguments n_right {K}.
Arguments n_parent {K}.

Section Store.
Context {K : Type}.

Definition with_color (c : bool) (n : node K) : node K :=
  mkNode (n_key n) (n_uid n) c (n_size n) (n_left n) (n_right n) (n_parent n).
Definition with_size (s : Z) (n : node K) : node K :=
  mkNode (n_key n) (n_uid n) (n_color n) s (n_left n) (n_right n) (n_parent n).
Definition with_left (a : addr) (n : node K) : node K :=
  mkNode (n_key n) (n_uid n) (n_color n) (n_size n) a (n_right n) (n_parent n).
Definition with_right (a : addr) (n : node K) : node K :=
  mkNode (n_key n) (n_uid n) (n_color n) (n_size n) (n_left n) a (n_parent n).
Definition with_parent (a : addr) (n : node K) : node K :=
  mkNode (n_key n) (n_uid n) (n_color n) (n_size n) (n_left n) (n_right n) a.

(** The tree object: the store of its nodes, [_root], [_size], [_next_uid],
    and the next free address of the store. *)
Record tree := mkTree {
  heap : addr → node K;
  root : addr;
  len : Z;
  next_uid : Z;
  brk : addr
}.

Definition rd (t : tree) (a : addr) : node K := heap t a.

Definition wr (t : tree) (a : addr) (f : node K → node K) : tree :=
  mkTree (λ b, if Nat.eqb b a then f (heap t a) else heap t b)
         (root t) (len t) (next_uid t) (brk t).

Definition set_root (t : tree) (a : addr) : tree :=
  mkTree (heap t) a (len t) (next_uid t) (brk t).
Definition set_len (t : tree) (n : Z) : tree :=
  mkTree (heap t) (root t) n (next_uid t) (brk t).
Definition set_next_uid (t : tree) (u : Z) : tree :=
  mkTree (heap t) (root t) (len t) u (brk t).

(** [_Node(...)]: a new object at the next free address. *)
Definition alloc (t : tree) (n : node K) : tree :=
  mkTree (λ b, if Nat.eqb b (brk t) then n else heap t b)
         (root t) (len t) (next_uid t) (S (brk t)).

Definition color_ (t : tree) (a : addr) : bool := n_color (rd t a).
Definition size_ (t : tree) (a : addr) : Z := n_size (rd t a).
Definition left_ (t : tree) (a : addr) : addr := n_left (rd t a).
Definition right_ (t : tree) (a : addr) : addr := n_right (rd t a).
Definition parent_ (t : tree) (a : addr) : addr := n_parent (rd t a).

Definition is_nil (a : addr) : bool := Nat.eqb a nil.
Definition same (a b : addr) : bool := Nat.eqb a b.

(** Every loop walks a path of the tree, so the number of allocated objects
    bounds its iterations. *)
Definition fuel (t : tree) : nat := S (S (brk t)).

(** [__init__] without items: the sentinel is its own child and parent. *)
Definition nil_node : node K := mkNode None (-1) BLACK 0 nil nil nil.
Definition empty : tree := mkTree (λ _, nil_node) nil 0 0 1%nat.

End Store.
Arguments tree K : clear implicits.

Section Ops.
Context {K : Type} {PO : PyOrder K}.

Local Abbreviation tree := (tree K).

(** A comparison of a key with the key stored in a node; comparing with the
    sentinel's [None] is a [TypeError]. *)
Definition cmp_key (op : K → K → bool) (key : K) (n : node K) : result bool :=
  match n_key n with
  | Some ck => Ok (op key ck)
  | None => Raise TypeError
  end.

(** [(key, uid) < (current.key, current.uid)] *)
Definition tuple_lt (key : K) (uid : Z) (n : node K) : result bool :=
  match n_key n with
  | Some ck => Ok (if py_eq key ck then uid <? n_uid n else py_lt key ck)
  | None => Raise TypeError
  end.

Definition _recompute_size (t : tree) (a : addr) : tree :=
  wr t a (with_size (size_ t (left_ t a) + size_ t (right_ t a) + 1)).

Fixpoint _update_sizes_upward (n : nat) (t : tree) (current : addr) : result tree :=
  match n with
  | O => Diverge
  | S n =>
      if is_nil current then Ok t
      else
        let t := _recompute_size t current in
        _update_sizes_upward n t (parent_ t current)
  end.

Definition _rotate_left (t : tree) (x : addr) : tree :=
  let y := right_ t x in
  let t := wr t x (with_right (left_ t y)) in
  let t := if is_nil (left_ t y) then t else wr t (left_ t y) (with_parent x) in
  let t := wr t y (with_parent (parent_ t x)) in
  let t := if is_nil (parent_ t x) then set_root t y
           else if same x (left_ t (parent_ t x))
                then wr t (parent_ t x) (with_left y)
                else wr t (parent_ t x) (with_right y) in
  let t := wr t y (with_left x) in
  let t := wr t x (with_parent y) in
  let t := _recompute_size t x in
  _recompute_size t y.

Definition _rotate_right (t : tree) (y : addr) : tree :=
  let x := left_ t y in
  let t := wr t y (with_left (right_ t x)) in
  let t := if is_nil (right_ t x) then t else wr t (right_ t x) (with_parent y) in
  let t := wr t x (with_parent (parent_ t y)) in
  let t := if is_nil (parent_ t y) then set_root t x
           else if same y (right_ t (parent_ t y))
                then wr t (parent_ t y) (with_right x)
                else wr t (parent_ t y) (with_left x) in
  let t := wr t x (with_right y) in
  let t := wr t y (with_parent x) in
  let t := _recompute_size t y in
  _recompute_size t x.

Fixpoint _insert_fixup (n : nat) (t : tree) (z : addr) : result tree :=
  match n with
  | O => Diverge
  | S n =>
      if color_ t (parent_ t z) then
        if same (parent_ t z) (left_ t (parent_ t (parent_ t z))) then
          let y := right_ t (parent_ t (parent_ t z)) in
          if color_ t y then
            let t := wr t (parent_ t z) (with_color BLACK) in
            let t := wr t y (with_color BLACK) in
            let t := wr t (parent_ t (parent_ t z)) (with_color RED) in
            _insert_fixup n t (parent_ t (parent_ t z))
          else
            let '(t, z) :=
              if same z (right_ t (parent_ t z))
              then (_rotate_left t (parent_ t z), parent_ t z)
              else (t, z) in
            let t := wr t (parent_ t z) (with_color BLACK) in
            let t := wr t (parent_ t (parent_ t z)) (with_color RED) in
            let t := _rotate_right t (parent_ t (parent_ t z)) in
            _insert_fixup n t z
        else
          let y := left_ t (parent_ t (parent_ t z)) in
          if color_ t y then
            let t := wr t (parent_ t z) (with_color BLACK) in
            let t := wr t y (with_color BLACK) in
            let t := wr t (parent_ t (parent_ t z)) (with_color RED) in
            _insert_fixup n t (parent_ t (parent_ t z))
          else
            let '(t, z) :=
              if same z (left_ t (parent_ t z))
              then (_rotate_right t (parent_ t z), parent_ t z)
              else (t, z) in
            let t := wr t (parent_ t z) (with_color BLACK) in
            let t := wr t (parent_ t (parent_ t z)) (with_color RED) in
            let t := _rotate_left t (parent_ t (parent_ t z)) in
            _insert_fixup n t z
      else Ok (wr t (root t) (with_color BLACK))
  end.

(** The descent of [insert]: returns the last node visited ([parent]). *)
Fixpoint insert_descend (n : nat) (t : tree) (key : K) (uid : Z)
    (parent current : addr) : result addr :=
  match n with
  | O => Diverge
  | S n =>
      if is_nil current then Ok parent
      else
        b ←ᵣ tuple_lt key uid (rd t current);
        if b then insert_descend n t key uid current (left_ t current)
        else insert_descend n t key uid current (right_ t current)
  end.

Definition insert (key : K) (t : tree) : result tree :=
  let uid := next_uid t in
  let t := set_next_uid t (uid + 1) in
  parent ←ᵣ insert_descend (fuel t) t key uid nil (root t);
  let node := brk t in
  let t := alloc t (mkNode (Some key) uid RED 1 nil nil parent) in
  t ←ᵣ (if is_nil parent then Ok (set_root t node)
        else
          b ←ᵣ tuple_lt key uid (rd t parent);
          Ok (if b then wr t parent (with_left node)
              else wr t parent (with_right node)));
  let t := set_len t (len t + 1) in
  t ←ᵣ _update_sizes_upward (fuel t) t (parent_ t node);
  _insert_fixup (fuel t) t node.

Fixpoint _select_node (n : nat) (t : tree) (current : addr) (k : Z) : result addr :=
  match n with
  | O => Diverge
  | S n =>
      if is_nil current then Raise IndexError
      else
        let left_size := size_ t (left_ t current) in
        if k <? left_size then _select_node n t (left_ t current) k
        else if k =? left_size then Ok current
        else _select_node n t (right_ t current) (k - (left_size + 1))
  end.

Definition select (k : Z) (t : tree) : result (option K) :=
  if (k <? 0) || (k >=? len t) then Raise IndexError
  else
    node ←ᵣ _select_node (fuel t) t (root t) k;
    Ok (n_key (rd t node)).

Fixpoint _count_less_than (n : nat) (t : tree) (key : K) (count : Z)
    (current : addr) : result Z :=
  match n with
  | O => Diverge
  | S n =>
      if is_nil current then Ok count
      else
        b ←ᵣ cmp_key py_le key (rd t current);
        if b then _count_less_than n t key count (left_ t current)
        else _count_less_than n t key
               (count + (size_ t (left_ t current) + 1)) (right_ t current)
  end.

Fixpoint _count_less_equal (n : nat) (t : tree) (key : K) (count : Z)
    (current : addr) : result Z :=
  match n with
  | O => Diverge
  | S n =>
      if is_nil current then Ok count
      else
        b ←ᵣ cmp_key py_lt key (rd t current);
        if b then _count_less_equal n t key count (left_ t current)
        else _count_less_equal n t key
               (count + (size_ t (left_ t current) + 1)) (right_ t current)
  end.

Definition rank (key : K) (t : tree) : result Z :=
  _count_less_than (fuel t) t key 0 (root t).

Definition count_range (lo hi : K) (t : tree) : result Z :=
  if py_gt lo hi then Ok 0
  else
    a ←ᵣ _count_less_equal (fuel t) t hi 0 (root t);
    b ←ᵣ _count_less_than (fuel t) t lo 0 (root t);
    Ok (a - b).

Fixpoint _min_node (n : nat) (t : tree) (current : addr) : result addr :=
  match n with
  | O => Diverge
  | S n =>
      if negb (is_nil current) && negb (is_nil (left_ t current))
      then _min_node n t (left_ t current)
      else Ok current
  end.

Definition _transplant (t : tree) (u v : addr) : tree :=
  let t := if is_nil (parent_ t u) then set_root t v
           else if same u (left_ t (parent_ t u))
                then wr t (parent_ t u) (with_left v)
                else wr t (parent_ t u) (with_right v) in
  wr t v (with_parent (parent_ t u)).

Fixpoint _delete_fixup (n : nat) (t : tree) (x : addr) : result tree :=
  match n with
  | O => Diverge
  | S n =>
      if negb (same x (root t)) && negb (color_ t x) then
        if same x (left_ t (parent_ t x)) then
          let w := right_ t (parent_ t x) in
          let '(t, w) :=
            if color_ t w then
              let t := wr t w (with_color BLACK) in
              let t := wr t (parent_ t x) (with_color RED) in
              let t := _rotate_left t (parent_ t x) in
              (t, right_ t (parent_ t x))
            else (t, w) in
          if negb (color_ t (left_ t w)) && negb (color_ t (right_ t w)) then
            let t := wr t w (with_color RED) in
            _delete_fixup n t (parent_ t x)
          else
            let '(t, w) :=
              if negb (color_ t (right_ t w)) then
                let t := wr t (left_ t w) (with_color BLACK) in
                let t := wr t w (with_color RED) in
                let t := _rotate_right t w in
                (t, right_ t (parent_ t x))
              else (t, w) in
            let t := wr t w (with_color (color_ t (parent_ t x))) in
            let t := wr t (parent_ t x) (with_color BLACK) in
            let t := wr t (right_ t w) (with_color BLACK) in
            let t := _rotate_left t (parent_ t x) in
            _delete_fixup n t (root t)
        else
          let w := left_ t (parent_ t x) in
          let '(t, w) :=
            if color_ t w then
              let t := wr t w (with_color BLACK) in
              let t := wr t (parent_ t x) (with_color RED) in
              let t := _rotate_right t (parent_ t x) in
              (t, left_ t (parent_ t x))
            else (t, w) in
          if negb (color_ t (right_ t w)) && negb (color_ t (left_ t w)) then
            let t := wr t w (with_color RED) in
            _delete_fixup n t (parent_ t x)
          else
            let '(t, w) :=
              if negb (color_ t (left_ t w)) then
                let t := wr t (right_ t w) (with_color BLACK) in
                let t := wr t w (with_color RED) in
                let t := _rotate_left t w in
                (t, left_ t (parent_ t x))
              else (t, w) in
            let t := wr t w (with_color (color_ t (parent_ t x))) in
            let t := wr t (parent_ t x) (with_color BLACK) in
            let t := wr t (left_ t w) (with_color BLACK) in
            let t := _rotate_right t (parent_ t x) in
            _delete_fixup n t (root t)
      else Ok (wr t x (with_color BLACK))
  end.

Definition _delete_node (t : tree) (z : addr) : result tree :=
  let y := z in
  let y_original_color := color_ t y in
  '(t, x, y, y_original_color, update_extra_parent) ←ᵣ
    (if is_nil (left_ t z) then
       let x := right_ t z in
       Ok (_transplant t z (right_ t z), x, y, y_original_color, None)
     else if is_nil (right_ t z) then
       let x := left_ t z in
       Ok (_transplant t z (left_ t z), x, y, y_original_color, None)
     else
       y ←ᵣ _min_node (fuel t) t (right_ t z);
       let y_original_color := color_ t y in
       let x := right_ t y in
       let '(t, update_extra_parent) :=
         if same (parent_ t y) z then (wr t x (with_parent y), None)
         else
           let update_extra_parent := Some (parent_ t y) in
           let t := _transplant t y (right_ t y) in
           let t := wr t y (with_right (right_ t z)) in
           let t := wr t (right_ t y) (with_parent y) in
           (t, update_extra_parent) in
       let t := _transplant t z y in
       let t := wr t y (with_left (left_ t z)) in
       let t := wr t (left_ t y) (with_parent y) in
       let t := wr t y (with_color (color_ t z)) in
       let t := _recompute_size t y in
       Ok (t, x, y, y_original_color, update_extra_parent));
  t ←ᵣ (if negb y_original_color then _delete_fixup (fuel t) t x else Ok t);
  let t := set_len t (len t - 1) in
  t ←ᵣ _update_sizes_upward (fuel t) t (parent_ t x);
  t ←ᵣ _update_sizes_upward (fuel t) t (parent_ t y);
  match update_extra_parent with
  | Some p => _update_sizes_upward (fuel t) t p
  | None => Ok t
  end.

Definition remove_by_rank (k : Z) (t : tree) : result tree :=
  if (k <? 0) || (k >=? len t) then Raise IndexError
  else
    node ←ᵣ _select_node (fuel t) t (root t) k;
    _delete_node t node.

(** [inorder]: the keys in the order the generator yields them. *)
Fixpoint _inorder_nodes (n : nat) (t : tree) (a : addr) : result (list (option K)) :=
  match n with
  | O => Diverge
  | S n =>
      if is_nil a then Ok []
      else
        l ←ᵣ _inorder_nodes n t (left_ t a);
        r ←ᵣ _inorder_nodes n t (right_ t a);
        Ok (l ++ n_key (rd t a) :: r)
  end.

Definition inorder (t : tree) : result (list (option K)) :=
  _inorder_nodes (fuel t) t (root t).

(** [__init__] with items. *)
Fixpoint insert_all (items : list K) (t : tree) : result tree :=
  match items with
  | [] => Ok t
  | k :: items => t ←ᵣ insert k t; insert_all items t
  end.

(** [_max_node], [min], [max], [floor] and [ceiling]: the queries that walk
    down from the root. *)
Fixpoint _max_node (n : nat) (t : tree) (current : addr) : result addr :=
  match n with
  | O => Diverge
  | S n =>
      if negb (is_nil current) && negb (is_nil (right_ t current))
      then _max_node n t (right_ t current)
      else Ok current
  end.

Definition min (t : tree) : result (option K) :=
  node ←ᵣ _min_node (fuel t) t (root t);
  Ok (if is_nil node then None else n_key (rd t node)).

Definition max (t : tree) : result (option K) :=
  node ←ᵣ _max_node (fuel t) t (root t);
  Ok (if is_nil node then None else n_key (rd t node)).

Fixpoint floor_loop (n : nat) (t : tree) (key : K) (candidate : option K)
    (current : addr) : result (option K) :=
  match n with
  | O => Diverge
  | S n =>
      if is_nil current then Ok candidate
      else
        b ←ᵣ cmp_key py_lt key (rd t current);
        if b then floor_loop n t key candidate (left_ t current)
        else floor_loop n t key (n_key (rd t current)) (right_ t current)
  end.

Definition floor (key : K) (t : tree) : result (option K) :=
  floor_loop (fuel t) t key None (root t).

Fixpoint ceiling_loop (n : nat) (t : tree) (key : K) (candidate : option K)
    (current : addr) : result (option K) :=
  match n with
  | O => Diverge
  | S n =>
      if is_nil current then Ok candidate
      else
        b ←ᵣ cmp_key py_gt key (rd t current);
        if b then ceiling_loop n t key candidate (right_ t current)
        else ceiling_loop n t key (n_key (rd t current)) (left_ t current)
  end.

Definition ceiling (key : K) (t : tree) : result (option K) :=
  ceiling_loop (fuel t) t key None (root t).

End Ops.

(** ** The abstract tree behind the store

    A store is read back as a binary tree whose nodes carry the colour and
    the stored size of the object, and its identity: address, key and uid.
    A context is the path from a position of the tree up to the root. *)

Section Ghost.
Context {K : Type} {PO : PyOrder K}.

Local Abbreviation tree := (tree K).

Record ent := mkEnt { e_addr : addr; e_key : K; e_uid : Z }.

Inductive Tr :=
| L
| N (c : bool) (s : Z) (e : ent) (l r : Tr).

Inductive frame :=
| FL (c : bool) (s : Z) (e : ent) (r : Tr)
| FR (c : bool) (s : Z) (e : ent) (l : Tr).

Fixpoint fill (ctx : list frame) (X : Tr) : Tr :=
  match ctx with
  | [] => X
  | FL c s e r :: ctx => fill ctx (N c s e X r)
  | FR c s e l :: ctx => fill ctx (N c s e l X)
  end.

Definition ra (X : Tr) : addr :=
  match X with L => nil | N _ _ e _ _ => e_addr e end.
Definition tcolor (X : Tr) : bool :=
  match X with L => BLACK | N c _ _ _ _ => c end.
Definition sz (X : Tr) : Z :=
  match X with L => 0 | N _ s _ _ _ => s end.

Definition f_ent (f : frame) : ent :=
  match f with FL _ _ e _ | FR _ _ e _ => e end.
Definition pa (ctx : list frame) : addr :=
  match ctx with [] => nil | f :: _ => e_addr (f_ent f) end.

Fixpoint ents (X : Tr) : list ent :=
  match X with
  | L => []
  | N _ _ e l r => ents l ++ e :: ents r
  end.
Definition addrs (X : Tr) : list addr := e_addr <$> ents X.

Fixpoint lefts (ctx : list frame) : list ent :=
  match ctx with
  | [] => []
  | FL _ _ _ _ :: ctx => lefts ctx
  | FR _ _ e l :: ctx => lefts ctx ++ ents l ++ [e]
  end.
Fixpoint rights (ctx : list frame) : list ent :=
  match ctx with
  | [] => []
  | FL _ _ e r :: ctx => e :: ents r ++ rights ctx
  | FR _ _ _ _ :: ctx => rights ctx
  end.

Lemma ents_fill ctx X : ents (fill ctx X) = lefts ctx ++ ents X ++ rights ctx.
Proof.
  revert X; induction ctx as [|[c s e r|c s e l] ctx IH]; intros X; simpl.
  - by rewrite app_nil_r.
  - rewrite IH. simpl. by rewrite <- !app_assoc.
  - rewrite IH. simpl. by rewrite <- !app_assoc.
Qed.

(** The cell of a node, given its children and its parent. *)
Definition cell (c : bool) (s : Z) (e : ent) (l r p : addr) : node K :=
  mkNode (Some (e_key e)) (e_uid e) c s l r p.

Fixpoint rep (h : addr → node K) (par : addr) (X : Tr) : Prop :=
  match X with
  | L => True
  | N c s e l r =>
      h (e_addr e) = cell c s e (ra l) (ra r) par
      ∧ rep h (e_addr e) l ∧ rep h (e_addr e) r
  end.

Fixpoint repc (h : addr → node K) (ctx : list frame) (hole : addr) : Prop :=
  match ctx with
  | [] => True
  | FL c s e r :: ctx =>
      h (e_addr e) = cell c s e hole (ra r) (pa ctx)
      ∧ rep h (e_addr e) r ∧ repc h ctx (e_addr e)
  | FR c s e l :: ctx =>
      h (e_addr e) = cell c s e (ra l) hole (pa ctx)
      ∧ rep h (e_addr e) l ∧ repc h ctx (e_addr e)
  end.

Fixpoint top (ctx : list frame) (a : addr) : addr :=
  match ctx with
  | [] => a
  | f :: ctx => top ctx (e_addr (f_ent f))
  end.

Lemma ra_fill ctx X : ra (fill ctx X) = top ctx (ra X).
Proof.
  revert X; induction ctx as [|[c s e r|c s e l] ctx IH]; intros X; simpl; auto;
    by rewrite IH.
Qed.

Lemma rep_fill h ctx X :
  rep h nil (fill ctx X) ↔ repc h ctx (ra X) ∧ rep h (pa ctx) X.
Proof.
  revert X; induction ctx as [|[c s e r|c s e l] ctx IH]; intros X; simpl.
  - tauto.
  - rewrite IH. simpl. tauto.
  - rewrite IH. simpl. tauto.
Qed.

Lemma elem_of_addrs_N a c s e l r :
  a ∈ addrs (N c s e l r) ↔ a = e_addr e ∨ a ∈ addrs l ∨ a ∈ addrs r.
Proof. unfold addrs. simpl. rewrite fmap_app. simpl. set_solver. Qed.

Definition caddrs (ctx : list frame) : list addr :=
  e_addr <$> (lefts ctx ++ rights ctx).

Lemma elem_of_caddrs_FL a c s e r ctx :
  a ∈ caddrs (FL c s e r :: ctx) ↔ a = e_addr e ∨ a ∈ addrs r ∨ a ∈ caddrs ctx.
Proof.
  unfold caddrs, addrs. simpl. rewrite !fmap_app. simpl. rewrite !fmap_app.
  set_solver.
Qed.

Lemma elem_of_caddrs_FR a c s e l ctx :
  a ∈ caddrs (FR c s e l :: ctx) ↔ a = e_addr e ∨ a ∈ addrs l ∨ a ∈ caddrs ctx.
Proof.
  unfold caddrs, addrs. simpl. rewrite !fmap_app. simpl. set_solver.
Qed.

Lemma elem_of_addrs_fill a ctx X :
  a ∈ addrs (fill ctx X) ↔ a ∈ caddrs ctx ∨ a ∈ addrs X.
Proof.
  unfold addrs, caddrs. rewrite ents_fill, !fmap_app. set_solver.
Qed.

(** Writes away from a subtree, or from a context, do not disturb it. *)
Lemma rep_frame h h' par X :
  (∀ a, a ∈ addrs X → h' a = h a) → rep h par X → rep h' par X.
Proof.
  revert par; induction X as [|c s e l IHl r IHr]; intros par Hf; simpl; auto.
  intros (Hc & Hl & Hr).
  split_and!.
  - rewrite Hf; auto. apply elem_of_addrs_N; auto.
  - apply IHl; [|done]. intros a Ha. apply Hf, elem_of_addrs_N; auto.
  - apply IHr; [|done]. intros a Ha. apply Hf, elem_of_addrs_N; auto.
Qed.

Lemma repc_frame h h' ctx hole :
  (∀ a, a ∈ caddrs ctx → h' a = h a) → repc h ctx hole → repc h' ctx hole.
Proof.
  revert hole; induction ctx as [|[c s e r|c s e l] ctx IH]; intros hole Hf;
    simpl; auto; intros (Hc & Hs & Hr).
  - split_and!.
    + rewrite Hf; auto. apply elem_of_caddrs_FL; auto.
    + eapply rep_frame; [|done]. intros a Ha. apply Hf, elem_of_caddrs_FL; auto.
    + apply IH; [intros a Ha; apply Hf, elem_of_caddrs_FL; auto|done].
  - split_and!.
    + rewrite Hf; auto. apply elem_of_caddrs_FR; auto.
    + eapply rep_frame; [|done]. intros a Ha. apply Hf, elem_of_caddrs_FR; auto.
    + apply IH; [intros a Ha; apply Hf, elem_of_caddrs_FR; auto|done].
Qed.

Lemma heap_wr_eq (t : tree) a f : heap (wr t a f) a = f (heap t a).
Proof. unfold wr. simpl. by rewrite Nat.eqb_refl. Qed.

Lemma heap_wr_ne (t : tree) a f b : b ≠ a → heap (wr t a f) b = heap t b.
Proof. intros Hb. unfold wr. simpl. by rewrite (proj2 (Nat.eqb_neq _ _)). Qed.

Lemma root_wr (t : tree) a f : root (wr t a f) = root t.
Proof. done. Qed.
Lemma len_wr (t : tree) a f : len (wr t a f) = len t.
Proof. done. Qed.
Lemma next_uid_wr (t : tree) a f : next_uid (wr t a f) = next_uid t.
Proof. done. Qed.
Lemma brk_wr (t : tree) a f : brk (wr t a f) = brk t.
Proof. done. Qed.

Local Opaque wr.

(** The store of [t] holds the tree [W]: [_root] points to it, every node
    has its cell, the addresses are distinct, allocated and not the
    sentinel's, and the sentinel is black, of size 0, with itself as both
    children.  The sentinel's parent field is scratch space. *)
Record Rep (t : tree) (W : Tr) : Prop := mkRep {
  R_root : root t = ra W;
  R_heap : rep (heap t) nil W;
  R_nodup : NoDup (addrs W);
  R_range : ∀ a, a ∈ addrs W → (0 < a < brk t)%nat;
  R_nil_color : n_color (heap t nil) = BLACK;
  R_nil_size : n_size (heap t nil) = 0;
  R_nil_left : n_left (heap t nil) = nil;
  R_nil_right : n_right (heap t nil) = nil
}.

Lemma addrs_fill_perm ctx X : addrs (fill ctx X) ≡ₚ caddrs ctx ++ addrs X.
Proof.
  unfold addrs, caddrs. rewrite ents_fill, !fmap_app.
  rewrite <- !app_assoc. apply Permutation_app_head, Permutation_app_comm.
Qed.

Lemma addrs_N_perm c s e l r : addrs (N c s e l r) ≡ₚ e_addr e :: addrs l ++ addrs r.
Proof.
  unfold addrs. simpl. rewrite fmap_app. simpl.
  by rewrite Permutation_middle.
Qed.

Lemma addrs_fill_recolor ctx c s e l r c' s' :
  addrs (fill ctx (N c' s' e l r)) = addrs (fill ctx (N c s e l r)).
Proof. unfold addrs. by rewrite !ents_fill. Qed.

(** The disjointness facts carried by a focused node. *)
Lemma NoDup_focus ctx c s e l r :
  NoDup (addrs (fill ctx (N c s e l r))) →
  e_addr e ∉ caddrs ctx ∧ e_addr e ∉ addrs l ∧ e_addr e ∉ addrs r
  ∧ (∀ a, a ∈ addrs l → a ∉ addrs r)
  ∧ (∀ a, a ∈ caddrs ctx → a ∉ addrs l ∧ a ∉ addrs r).
Proof.
  rewrite addrs_fill_perm, addrs_N_perm.
  rewrite NoDup_app, NoDup_cons, NoDup_app.
  intros (_ & Hd & Hn & _ & Hlr & _).
  split_and!.
  - intros Hin. apply (Hd _ Hin). left.
  - intros Hin. apply Hn. apply elem_of_app; auto.
  - intros Hin. apply Hn. apply elem_of_app; auto.
  - done.
  - intros a Ha. split; intros Hin; apply (Hd _ Ha); right; apply elem_of_app; auto.
Qed.

Lemma Rep_notnil t ctx c s e l r :
  Rep t (fill ctx (N c s e l r)) → e_addr e ≠ nil.
Proof.
  intros HR. assert (0 < e_addr e < brk t)%nat as Hr.
  { apply (R_range _ _ HR), elem_of_addrs_fill. right.
    apply elem_of_addrs_N; auto. }
  unfold nil. lia.
Qed.

Lemma Rep_read t ctx c s e l r :
  Rep t (fill ctx (N c s e l r)) →
  rd t (e_addr e) = cell c s e (ra l) (ra r) (pa ctx).
Proof.
  intros HR. pose proof (R_heap _ _ HR) as Hh.
  apply rep_fill in Hh as (_ & Hh). simpl in Hh. tauto.
Qed.

Lemma Rep_color t ctx X : Rep t (fill ctx X) → color_ t (ra X) = tcolor X.
Proof.
  intros HR. destruct X as [|c s e l r]; simpl.
  - apply (R_nil_color _ _ HR).
  - unfold color_. by rewrite (Rep_read _ _ _ _ _ _ _ HR).
Qed.

Lemma Rep_size t ctx X : Rep t (fill ctx X) → size_ t (ra X) = sz X.
Proof.
  intros HR. destruct X as [|c s e l r]; simpl.
  - apply (R_nil_size _ _ HR).
  - unfold size_. by rewrite (Rep_read _ _ _ _ _ _ _ HR).
Qed.

(** A write to the colour or the size of the focused node. *)
Lemma Rep_wr t ctx c s e l r f c' s' :
  Rep t (fill ctx (N c s e l r)) →
  f (cell c s e (ra l) (ra r) (pa ctx)) = cell c' s' e (ra l) (ra r) (pa ctx) →
  Rep (wr t (e_addr e) f) (fill ctx (N c' s' e l r)).
Proof.
  intros HR Hf.
  pose proof (Rep_notnil _ _ _ _ _ _ _ HR) as Hnn.
  pose proof (Rep_read _ _ _ _ _ _ _ HR) as Hrd. unfold rd in Hrd.
  destruct HR as [Hroot Hh Hnd Hrg Hn1 Hn2 Hn3 Hn4].
  pose proof (NoDup_focus _ _ _ _ _ _ Hnd) as (Dc & Dl & Dr & _ & _).
  apply rep_fill in Hh as (Hc & Hx). simpl in Hx. destruct Hx as (_ & Hl & Hr).
  split.
  - rewrite root_wr, Hroot, !ra_fill. done.
  - apply rep_fill. split.
    + eapply repc_frame; [|exact Hc]. intros a Ha. apply heap_wr_ne. by intros ->.
    + simpl rep. rewrite heap_wr_eq, Hrd, Hf. split_and!; auto.
      * eapply rep_frame; [|exact Hl]. intros a Ha. apply heap_wr_ne. by intros ->.
      * eapply rep_frame; [|exact Hr]. intros a Ha. apply heap_wr_ne. by intros ->.
  - by rewrite (addrs_fill_recolor ctx c s).
  - intros a. rewrite (addrs_fill_recolor ctx c s). apply Hrg.
  - rewrite heap_wr_ne; auto.
  - rewrite heap_wr_ne; auto.
  - rewrite heap_wr_ne; auto.
  - rewrite heap_wr_ne; auto.
Qed.

(** ** Symbolic stores: the cells of finitely many tracked objects *)
Record Sym (AS : list addr) (NS : list (node K)) (rt : addr) (t0 tc : tree) : Prop := mkSym {
  S_nodup : NoDup AS;
  S_cells : ∀ i a n, AS !! i = Some a → NS !! i = Some n → heap tc a = n;
  S_rest : ∀ a, a ∉ AS → heap tc a = heap t0 a;
  S_root : root tc = rt;
  S_len : len tc = len t0;
  S_uid : next_uid tc = next_uid t0;
  S_brk : brk tc = brk t0
}.

Lemma Sym_wr AS NS rt t0 tc i a n f :
  Sym AS NS rt t0 tc → AS !! i = Some a → NS !! i = Some n →
  Sym AS (<[i := f n]> NS) rt t0 (wr tc a f).
Proof.
  intros [Hnd Hc Hr Hroot Hl Hu Hb] Hi Hn.
  split; auto.
  - intros j b m Hj Hm. destruct (decide (j = i)) as [->|Hne].
    + rewrite list_lookup_insert_eq in Hm by (by eapply lookup_lt_Some).
      simplify_eq. rewrite heap_wr_eq. f_equal. eauto.
    + rewrite list_lookup_insert_ne in Hm by done.
      rewrite heap_wr_ne; eauto.
      intros ->. apply Hne. eapply NoDup_lookup; eauto.
  - intros b Hb'. rewrite heap_wr_ne; auto. intros ->. apply Hb'.
    by eapply list_elem_of_lookup_2.
Qed.

Lemma Sym_set_root AS NS rt t0 tc r :
  Sym AS NS rt t0 tc → Sym AS NS r t0 (set_root tc r).
Proof. intros [Hnd Hc Hr Hroot Hl Hu Hb]. by split. Qed.

Lemma Sym_init AS (t : tree) :
  NoDup AS → Sym AS (heap t <$> AS) (root t) t t.
Proof.
  intros Hnd. split; auto. intros i a n Ha Hn.
  rewrite list_lookup_fmap, Ha in Hn. by simplify_eq/=.
Qed.

Lemma Sym_read AS NS rt t0 tc i a n :
  Sym AS NS rt t0 tc → AS !! i = Some a → NS !! i = Some n → heap tc a = n.
Proof. intros HS. apply (S_cells _ _ _ _ _ HS). Qed.

Lemma ra_cases (X : Tr) : ra X = nil ∨ ra X ∈ addrs X.
Proof. destruct X; [by left|right]. apply elem_of_addrs_N. auto. Qed.

Lemma is_nil_nil : is_nil nil = true.
Proof. done. Qed.
Lemma is_nil_ne a : a ≠ nil → is_nil a = false.
Proof. intros. by apply Nat.eqb_neq. Qed.
Lemma same_refl a : same a a = true.
Proof. apply Nat.eqb_refl. Qed.
Lemma same_ne a b : a ≠ b → same a b = false.
Proof. intros. by apply Nat.eqb_neq. Qed.

Definition Meta (t t' : tree) : Prop :=
  len t' = len t ∧ next_uid t' = next_uid t ∧ brk t' = brk t.

Definition nil_ok (n : node K) : Prop :=
  n_color n = BLACK ∧ n_size n = 0 ∧ n_left n = nil ∧ n_right n = nil.

Lemma Rep_rebuild AS NS rt (t tc : tree) W W' :
  Sym AS NS rt t tc → Rep t W → rt = ra W' → addrs W' ≡ₚ addrs W →
  nil_ok (heap tc nil) → rep (heap tc) nil W' → Rep tc W' ∧ Meta t tc.
Proof.
  intros HS HR Hrt Hp (Hn1 & Hn2 & Hn3 & Hn4) Hrep.
  destruct HS as [_ _ _ Hroot Hl Hu Hb].
  split; [split; auto|by split].
  - congruence.
  - rewrite Hp. apply (R_nodup _ _ HR).
  - intros a. rewrite Hp, Hb. apply (R_range _ _ HR).
Qed.

Lemma Rep_nil_ok t W : Rep t W → nil_ok (heap t nil).
Proof. intros [_ _ _ _ ? ? ? ?]. by split_and!. Qed.

(** The counters and the sentinel are left alone. *)
Definition Keep (t t' : tree) : Prop :=
  Meta t t' ∧ heap t' nil = heap t nil.

Lemma Keep_refl t : Keep t t.
Proof. by repeat split. Qed.

Lemma Keep_trans t1 t2 t3 : Keep t1 t2 → Keep t2 t3 → Keep t1 t3.
Proof.
  intros ((A1 & B1 & C1) & D1) ((A2 & B2 & C2) & D2).
  repeat split; congruence.
Qed.

Lemma Rep_rebuild_keep AS NS rt (t tc : tree) W W' :
  Sym AS NS rt t tc → Rep t W → nil ∉ AS → rt = ra W' →
  addrs W' ≡ₚ addrs W → rep (heap tc) nil W' → Rep tc W' ∧ Keep t tc.
Proof.
  intros HS HR Hnil Hrt Hp Hrep.
  pose proof (S_rest _ _ _ _ _ HS nil Hnil) as Hn.
  destruct (Rep_rebuild _ _ _ _ _ _ _ HS HR Hrt Hp) as [H1 H2]; auto.
  - rewrite Hn. by eapply Rep_nil_ok.
  - split; [done|]. by split.
Qed.


Lemma caddrs_FL_perm c s (e : ent) r ctx :
  caddrs (FL c s e r :: ctx) ≡ₚ e_addr e :: addrs r ++ caddrs ctx.
Proof.
  unfold caddrs, addrs. simpl. rewrite !fmap_app, fmap_cons, fmap_app.
  rewrite <- Permutation_middle. apply perm_skip.
  rewrite !app_assoc. apply Permutation_app_tail, Permutation_app_comm.
Qed.

Lemma caddrs_FR_perm c s (e : ent) l ctx :
  caddrs (FR c s e l :: ctx) ≡ₚ e_addr e :: addrs l ++ caddrs ctx.
Proof.
  unfold caddrs, addrs. simpl. rewrite !fmap_app. simpl.
  rewrite <- !app_assoc. simpl. rewrite !app_assoc.
  rewrite <- Permutation_middle. apply perm_skip.
  rewrite <- !app_assoc. rewrite !app_assoc. apply Permutation_app_tail, Permutation_app_comm.
Qed.


Lemma Rep_nonnil t W : Rep t W → Forall (λ a, a ≠ nil) (addrs W).
Proof.
  intros HR. apply Forall_forall. intros a Ha.
  apply (R_range _ _ HR) in Ha. unfold nil. lia.
Qed.


(** ** The pure mirror of [_insert_fixup] *)

Definition plug (f : frame) (X : Tr) : Tr :=
  match f with
  | FL c s e r => N c s e X r
  | FR c s e l => N c s e l X
  end.
Definition f_color (f : frame) : bool :=
  match f with FL c _ _ _ | FR c _ _ _ => c end.
Definition fcol (c : bool) (f : frame) : frame :=
  match f with
  | FL _ s e r => FL c s e r
  | FR _ s e l => FR c s e l
  end.
Definition tcol (c : bool) (X : Tr) : Tr :=
  match X with L => L | N _ s e l r => N c s e l r end.
Definition uncle (g : frame) : Tr :=
  match g with FL _ _ _ r => r | FR _ _ _ l => l end.
Definition recolor_g (g : frame) : frame :=
  match g with
  | FL _ s e r => FL RED s e (tcol BLACK r)
  | FR _ s e l => FR RED s e (tcol BLACK l)
  end.

Definition rotL (X : Tr) : Tr :=
  match X with
  | N cx sx ex a (N cy sy ey b c) =>
      N cy (sz a + sz b + 1 + sz c + 1) ey (N cx (sz a + sz b + 1) ex a b) c
  | _ => X
  end.
Definition rotR (X : Tr) : Tr :=
  match X with
  | N cy sy ey (N cx sx ex a b) c =>
      N cx (sz a + (sz b + sz c + 1) + 1) ex a (N cy (sz b + sz c + 1) ey b c)
  | _ => X
  end.

(** The two rotation shapes of [_insert_fixup], the uncle being black. *)
Definition ins_rot (p g : frame) (z : Tr) : Tr :=
  match g, p with
  | FL _ _ _ _, FL _ _ _ _ => rotR (plug (fcol RED g) (tcol BLACK (plug p z)))
  | FL _ _ _ _, FR _ _ _ _ => rotR (plug (fcol RED g) (tcol BLACK (rotL (plug p z))))
  | FR _ _ _ _, FR _ _ _ _ => rotL (plug (fcol RED g) (tcol BLACK (plug p z)))
  | FR _ _ _ _, FL _ _ _ _ => rotL (plug (fcol RED g) (tcol BLACK (rotR (plug p z))))
  end.

Fixpoint ins_fix (ctx : list frame) (z : Tr) : Tr :=
  match ctx with
  | p :: g :: ctx' =>
      if f_color p then
        if tcolor (uncle g)
        then ins_fix ctx' (plug (recolor_g g) (plug (fcol BLACK p) z))
        else tcol BLACK (fill ctx' (ins_rot p g z))
      else tcol BLACK (fill ctx z)
  | _ => tcol BLACK (fill ctx z)
  end.

Definition root_black (ctx : list frame) : Prop :=
  match last ctx with Some f => f_color f = BLACK | None => True end.

Lemma _insert_fixup_eq n (t : tree) z :
  _insert_fixup (S n) t z =
      if color_ t (parent_ t z) then
        if same (parent_ t z) (left_ t (parent_ t (parent_ t z))) then
          let y := right_ t (parent_ t (parent_ t z)) in
          if color_ t y then
            let t := wr t (parent_ t z) (with_color BLACK) in
            let t := wr t y (with_color BLACK) in
            let t := wr t (parent_ t (parent_ t z)) (with_color RED) in
            _insert_fixup n t (parent_ t (parent_ t z))
          else
            let '(t, z) :=
              if same z (right_ t (parent_ t z))
              then (_rotate_left t (parent_ t z), parent_ t z)
              else (t, z) in
            let t := wr t (parent_ t z) (with_color BLACK) in
            let t := wr t (parent_ t (parent_ t z)) (with_color RED) in
            let t := _rotate_right t (parent_ t (parent_ t z)) in
            _insert_fixup n t z
        else
          let y := left_ t (parent_ t (parent_ t z)) in
          if color_ t y then
            let t := wr t (parent_ t z) (with_color BLACK) in
            let t := wr t y (with_color BLACK) in
            let t := wr t (parent_ t (parent_ t z)) (with_color RED) in
            _insert_fixup n t (parent_ t (parent_ t z))
          else
            let '(t, z) :=
              if same z (left_ t (parent_ t z))
              then (_rotate_right t (parent_ t z), parent_ t z)
              else (t, z) in
            let t := wr t (parent_ t z) (with_color BLACK) in
            let t := wr t (parent_ t (parent_ t z)) (with_color RED) in
            let t := _rotate_left t (parent_ t (parent_ t z)) in
            _insert_fixup n t z
      else Ok (wr t (root t) (with_color BLACK)).
Proof. reflexivity. Qed.

Lemma rep_color (h : addr → node K) par X :
  rep h par X → n_color (h nil) = BLACK → n_color (h (ra X)) = tcolor X.
Proof. destruct X; simpl; [done|]. by intros (-> & _). Qed.

Lemma rep_size (h : addr → node K) par X :
  rep h par X → n_size (h nil) = 0 → n_size (h (ra X)) = sz X.
Proof. destruct X; simpl; [done|]. by intros (-> & _). Qed.

End Ghost.

#[global] Opaque wr.

(** ** Tactics: symbolic execution of straight-line store code *)

Ltac neq := first [ assumption | apply not_eq_sym; assumption ].
Ltac nsimp := cbn [n_left n_right n_parent n_size n_color n_key n_uid cell
                   with_left with_right with_parent with_size with_color ra pa
                   f_ent e_addr sz tcolor].
Ltac idx a AS :=
  lazymatch AS with
  | a :: _ => constr:(0%nat)
  | _ :: ?r => let i := idx a r in constr:(S i)
  end.

(** One read of the current store in [H], through the symbolic state [HS]. *)
Ltac sym_read1 HS H :=
  lazymatch type of HS with
  | Sym ?AS ?NS _ _ ?tc =>
      match type of H with
      | context [heap tc ?a] =>
          first
            [ let i := idx a AS in
              rewrite (Sym_read _ _ _ _ _ i a _ HS eq_refl eq_refl) in H
            | match goal with
              | Hn : a ∉ AS |- _ => rewrite (S_rest _ _ _ _ _ HS a Hn) in H
              end ]
      end
  end.
Ltac tests H :=
  repeat first
    [ rewrite is_nil_nil in H | rewrite is_nil_ne in H by neq
    | rewrite same_refl in H | rewrite same_ne in H by neq ].
Ltac sizes H :=
  repeat match goal with
  | E : n_size (heap ?t ?a) = _ |- _ =>
      lazymatch type of H with
      | context [n_size (heap t a)] => rewrite E in H
      end
  end.
Ltac norm HS H :=
  unfold _recompute_size, left_, right_, parent_, color_, size_, rd in H;
  repeat (progress (repeat sym_read1 HS H;
                    cbn [n_left n_right n_parent n_size n_color n_key n_uid cell
                         with_left with_right with_parent with_size with_color
                         ra pa f_ent e_addr sz tcolor] in H;
                    sizes H; tests H; cbv iota in H)).

Ltac sx_adv HS n :=
  lazymatch type of HS with
  | Sym ?AS ?NS ?rt ?t0 ?tc =>
      lazymatch n with
      | wr tc ?a ?f =>
          let i := idx a AS in
          let HS' := fresh "HS" in
          pose proof (Sym_wr _ _ _ _ _ i a _ f HS eq_refl eq_refl) as HS';
          simpl in HS';
          let tn := fresh "tc" in
          set (tn := wr tc a f) in *; clearbody tn; clear HS; rename HS' into HS
      | set_root tc ?r =>
          let HS' := fresh "HS" in
          pose proof (Sym_set_root _ _ _ _ _ r HS) as HS';
          let tn := fresh "tc" in
          set (tn := set_root tc r) in *; clearbody tn; clear HS; rename HS' into HS
      | _ => idtac
      end
  end.
Ltac sx_step HS :=
  lazymatch goal with
  | |- context C [let v := ?e in @?b v] =>
      let x := fresh "x" in
      let Hx := fresh "Hx" in
      pose (x := e);
      let g := context C [b x] in
      change g; cbv beta;
      assert (Hx : x = e) by reflexivity; clearbody x; norm HS Hx;
      lazymatch type of Hx with
      | _ = ?n => subst x; sx_adv HS n
      end
  end.
(** The last expression of a body, a tree. *)
Ltac sx_last HS :=
  lazymatch type of HS with
  | Sym _ _ _ _ ?tc =>
      lazymatch goal with
      | |- context [wr tc ?a ?f] =>
          let x := fresh "x" in
          let Hx := fresh "Hx" in
          remember (wr tc a f) as x eqn:Hx in |- *; norm HS Hx;
          lazymatch type of Hx with
          | _ = ?n => subst x; sx_adv HS n
          end
      end
  end.
Ltac sx HS := repeat sx_step HS.



Ltac cell_tac HS :=
  lazymatch goal with
  | |- heap ?tc ?a = _ =>
      lazymatch type of HS with
      | Sym ?AS _ _ _ tc =>
          let i := idx a AS in
          rewrite (Sym_read _ _ _ _ _ i a _ HS eq_refl eq_refl);
          unfold cell, with_size, with_parent, with_left, with_right, with_color;
          cbn [n_left n_right n_parent n_size n_color n_key n_uid];
          f_equal; first [ reflexivity | lia ]
      end
  end.
Ltac splitH :=
  repeat match goal with
  | H : _ ∧ _ |- _ => destruct H
  | H : NoDup (_ :: _) |- _ => apply NoDup_cons in H
  | H : NoDup (_ ++ _) |- _ => apply NoDup_app in H
  | H : _ ∉ _ :: _ |- _ => apply not_elem_of_cons in H
  | H : _ ∉ _ ++ _ |- _ => apply not_elem_of_app in H
  | H : _ ∉ [] |- _ => clear H
  | H : NoDup [] |- _ => clear H
  | H : Forall _ (_ :: _) |- _ => apply Forall_cons in H
  | H : Forall _ (_ ++ _) |- _ => apply Forall_app in H
  | H : Forall _ [] |- _ => clear H
  end.
Ltac mem :=
  rewrite ?elem_of_app, ?elem_of_cons;
  first [ assumption | now left | left; mem | right; mem ].
Ltac ne_tac :=
  first [ assumption | apply not_eq_sym; assumption
        | let E := fresh "E" in
          intros E; try rewrite E in *;
          lazymatch type of E with
          | _ = ?v =>
              match goal with
              | H : v ∉ ?l |- False => apply H; mem
              | H : ∀ x, x ∈ ?l1 → x ∉ ?l2 |- _ => apply (H v); mem
              end
          end ].
Ltac notin_tac :=
  rewrite ?not_elem_of_cons; repeat split;
  first [ apply not_elem_of_nil | ne_tac ].
Ltac nodup_tac :=
  repeat (apply NoDup_cons; split; [notin_tac|]); apply NoDup_nil_2.
Ltac ra_tac X :=
  let H := fresh "Hra" in
  destruct (ra_cases X) as [H|H]; [rewrite H in *|].

Ltac rest_tac HS :=
  let a := fresh "a" in let Ha := fresh "Ha" in
  intros a Ha; apply (S_rest _ _ _ _ _ HS); notin_tac.
Ltac frame_tac HS :=
  lazymatch goal with
  | |- rep _ _ L => exact I
  | |- rep _ _ _ => eapply rep_frame; [|eassumption]; rest_tac HS
  | |- repc _ _ _ => eapply repc_frame; [|eassumption]; rest_tac HS
  | |- heap _ _ = _ => cell_tac HS
  | |- True => exact I
  end.


(** Facts on the roots of the subtrees that stay outside of the tracked
    addresses [AS]. *)
Ltac outside AS :=
  repeat match goal with
  | X : Tr |- _ =>
      lazymatch goal with
      | _ : ra X ∉ AS |- _ => fail
      | _ =>
          let H := fresh "Ho" in
          let H' := fresh "Ho" in
          assert (ra X ∉ AS) as H by (ra_tac X; notin_tac);
          pose proof H as H'; rewrite !not_elem_of_cons in H';
          destruct_and? H'
      end
  end.
Ltac sym_init HR AS :=
  lazymatch type of HR with
  | Rep ?t _ =>
      let HS := fresh "HS" in
      assert (NoDup AS) as HS by nodup_tac;
      assert (nil ∉ AS) by notin_tac;
      outside AS;
      apply (Sym_init _ t) in HS; simpl in HS;
      repeat match goal with
      | E : heap t _ = cell _ _ _ _ _ _ |- _ => rewrite E in HS
      end
  end.
Ltac focus_goal :=
  lazymatch goal with
  | |- ?A ?tt ?W' ∧ ?B ?t0 ?tt =>
      let Q := fresh "Q" in
      set (Q := λ u, A u W' ∧ B t0 u); change (Q tt)
  end.
Ltac rebuild HS HR :=
  eapply Rep_rebuild_keep;
  [ exact HS | exact HR | assumption
  | first [ reflexivity | rewrite (R_root _ _ HR), !ra_fill; reflexivity ]
  |
  | apply rep_fill; simpl; split_and!; try frame_tac HS ].


Ltac rot_run HS HR :=
  focus_goal; cbv beta delta [_rotate_left _rotate_right];
  sx HS; unfold _recompute_size; sx_last HS;
  lazymatch goal with |- ?Q _ => unfold Q; clear Q end;
  rebuild HS HR.


Ltac facts H :=
  repeat match goal with
  | E : n_size (heap ?t ?a) = _ |- _ =>
      lazymatch type of H with
      | context [n_size (heap t a)] => rewrite E in H
      end
  | E : n_color (heap ?t ?a) = _ |- _ =>
      lazymatch type of H with
      | context [n_color (heap t a)] => rewrite E in H
      end
  | E : tcolor ?X = _ |- _ =>
      lazymatch type of H with
      | context [tcolor X] => rewrite E in H
      end
  end.
Ltac norm2 HS H :=
  unfold _recompute_size, left_, right_, parent_, color_, size_, rd in H;
  repeat (progress (repeat sym_read1 HS H;
                    cbn [n_left n_right n_parent n_size n_color n_key n_uid cell
                         with_left with_right with_parent with_size with_color
                         ra pa f_ent e_addr sz tcolor] in H;
                    facts H; tests H; cbv iota in H)).

(** The facts that [Rep] gives on the explicit part of the tree. *)
Ltac rep_facts HR :=
  let Hnd := fresh "Hnd" in
  let Hh := fresh "Hh" in
  let Hnz := fresh "Hnz" in
  let Hsn := fresh "Hsn" in
  let Hcn := fresh "Hcn" in
  pose proof (R_nodup _ _ HR) as Hnd;
  pose proof (R_heap _ _ HR) as Hh;
  pose proof (Rep_nonnil _ _ HR) as Hnz;
  pose proof (R_nil_size _ _ HR) as Hsn;
  pose proof (R_nil_color _ _ HR) as Hcn;
  apply rep_fill in Hh; simpl in Hh;
  rewrite addrs_fill_perm in Hnd, Hnz;
  repeat first [ rewrite addrs_N_perm in Hnd | rewrite caddrs_FL_perm in Hnd
               | rewrite caddrs_FR_perm in Hnd ];
  repeat first [ rewrite addrs_N_perm in Hnz | rewrite caddrs_FL_perm in Hnz
               | rewrite caddrs_FR_perm in Hnz ];
  splitH;
  repeat match goal with
  | H : rep (heap ?t) _ ?X |- _ =>
      is_var X;
      lazymatch goal with
      | _ : n_color (heap t (ra X)) = _ |- _ => fail
      | _ =>
          pose proof (rep_color _ _ _ H Hcn);
          pose proof (rep_size _ _ _ H Hsn)
      end
  end.

(** One test of the code, decided through the symbolic state. *)
Ltac sx_if HS :=
  match goal with
  | |- context C [if ?c then ?a else ?b] =>
      let x := fresh "x" in
      let Hx := fresh "Hx" in
      pose (x := c);
      let g := context C [if x then a else b] in
      change g;
      assert (Hx : x = c) by reflexivity; clearbody x; norm2 HS Hx;
      unfold RED, BLACK in Hx;
      lazymatch type of Hx with
      | _ = true => idtac
      | _ = false => idtac
      end;
      subst x; cbv iota
  end.
Ltac sx_step2 HS :=
  lazymatch goal with
  | |- context C [let v := ?e in @?b v] =>
      let x := fresh "x" in
      let Hx := fresh "Hx" in
      pose (x := e);
      let g := context C [b x] in
      change g; cbv beta;
      assert (Hx : x = e) by reflexivity; clearbody x; norm2 HS Hx;
      lazymatch type of Hx with
      | _ = ?n => subst x; sx_adv HS n
      end
  end.
(** Normalise the term [e] of the goal. *)
Ltac sx_term HS e :=
  let x := fresh "x" in
  let Hx := fresh "Hx" in
  remember e as x eqn:Hx in |- *; norm2 HS Hx; subst x.
Ltac focus_run :=
  lazymatch goal with
  | |- ∃ t1, ?lhs = @?rhs t1 ∧ @?P t1 =>
      let Q := fresh "Q" in
      set (Q := λ r, ∃ t1, r = rhs t1 ∧ P t1); change (Q lhs)
  end.
Ltac unfocus :=
  lazymatch goal with |- ?Q _ => unfold Q; clear Q end.


(** Head-directed stepping: the goal is [Q code]. *)
Ltac no_rot e :=
  lazymatch e with
  | context [_rotate_left] => fail
  | context [_rotate_right] => fail
  | _ => idtac
  end.
Ltac hx_step HS :=
  lazymatch goal with
  | |- ?Q (let v := ?e in @?b v) =>
      lazymatch e with
      | _rotate_left ?t0 _ => is_var t0
      | _rotate_right ?t0 _ => is_var t0
      | _ => no_rot e
      end;
      let x := fresh "x" in
      let Hx := fresh "Hx" in
      pose (x := e);
      change (Q (b x)); cbv beta;
      assert (Hx : x = e) by reflexivity; clearbody x; norm2 HS Hx;
      lazymatch type of Hx with
      | _ = ?n => subst x; sx_adv HS n
      end
  | |- ?Q (if ?c then ?a else ?b) =>
      no_rot c;
      let x := fresh "x" in
      let Hx := fresh "Hx" in
      pose (x := c);
      change (Q (if x then a else b));
      assert (Hx : x = c) by reflexivity; clearbody x; norm2 HS Hx;
      unfold RED, BLACK in Hx;
      lazymatch type of Hx with
      | _ = true => idtac
      | _ = false => idtac
      end;
      subst x; cbv iota
  | |- ?Q (_insert_fixup _ _ _) => fail
  | |- ?Q (Ok _) => fail
  | |- ?Q ?e => sx_if HS
  end.
Ltac hx HS := repeat hx_step HS.
Ltac ents_tac :=
  unfold addrs; simpl; rewrite ?ents_fill; simpl;
  repeat (rewrite <- ?app_assoc; simpl); reflexivity.

Ltac with_sym tac :=
  lazymatch goal with HS : Sym _ _ _ _ _ |- _ => tac HS end.
Ltac clear_sym :=
  repeat match goal with HS : Sym _ _ _ _ _ |- _ => clear HS end.
Ltac sx_reads HS :=
  lazymatch type of HS with
  | Sym _ _ _ _ ?tc =>
      repeat match goal with
      | |- context [parent_ tc ?a] => progress (sx_term HS (parent_ tc a))
      | |- context [left_ tc ?a] => progress (sx_term HS (left_ tc a))
      | |- context [right_ tc ?a] => progress (sx_term HS (right_ tc a))
      end
  end.
Ltac name_tree t1 e :=
  set (t1 := e) in *; clearbody t1.

(** ** The operations on the store against the abstract tree *)

Section Refine.
Context {K : Type} {PO : PyOrder K}.

Local Abbreviation tree := (tree K).

Lemma Rep_rotate_left (t : tree) ctx cx sx ex a cy sy ey b c :
  Rep t (fill ctx (N cx sx ex a (N cy sy ey b c))) →
  Rep (_rotate_left t (e_addr ex))
      (fill ctx (N cy (sz a + sz b + 1 + sz c + 1) ey
                   (N cx (sz a + sz b + 1) ex a b) c))
  ∧ Keep t (_rotate_left t (e_addr ex)).
Proof.
  intros HR.
  pose proof (Rep_read _ _ _ _ _ _ _ HR) as Hx.
  pose proof (Rep_read t (FR cx sx ex a :: ctx) _ _ _ _ _ HR) as Hy.
  pose proof (Rep_notnil _ _ _ _ _ _ _ HR) as Hxn.
  pose proof (Rep_notnil t (FR cx sx ex a :: ctx) _ _ _ _ _ HR) as Hyn.
  pose proof (Rep_size t (FL cx sx ex (N cy sy ey b c) :: ctx) a HR) as Hsa.
  pose proof (Rep_size t (FL cy sy ey c :: FR cx sx ex a :: ctx) b HR) as Hsb.
  pose proof (Rep_size t (FR cy sy ey b :: FR cx sx ex a :: ctx) c HR) as Hsc.
  pose proof (R_nil_size _ _ HR) as Hsn.
  pose proof (R_nodup _ _ HR) as Hnd.
  pose proof (R_heap _ _ HR) as Hh.
  pose proof (R_root _ _ HR) as Hroot.
  rewrite ra_fill in Hroot.
  apply rep_fill in Hh as (Hc & _ & Ha & _ & Hb & Hcc).
  pose proof (Rep_nonnil _ _ HR) as Hnz.
  rewrite addrs_fill_perm in Hnd, Hnz.
  rewrite !addrs_N_perm in Hnd, Hnz.
  unfold size_, rd in *.
  assert (∀ ctx', ents (fill ctx' (N cy (sz a + sz b + 1 + sz c + 1) ey
                   (N cx (sz a + sz b + 1) ex a b) c)) =
          ents (fill ctx' (N cx sx ex a (N cy sy ey b c)))) as He.
  { intros. rewrite !ents_fill. simpl. repeat (rewrite <- ?app_assoc; simpl). reflexivity. }
  destruct ctx as [|[cp sp ep r|cp sp ep l] ctx]; destruct b as [|cb sb eb bl br];
    simpl in Hx, Hy, Hc, Hb; rewrite ?addrs_N_perm, ?caddrs_FL_perm, ?caddrs_FR_perm in Hnd, Hnz; splitH.
  - sym_init HR [e_addr ex; e_addr ey].
    rot_run HS HR. unfold addrs; by rewrite He.
  - sym_init HR [e_addr ex; e_addr ey; e_addr eb].
    rot_run HS HR. unfold addrs; by rewrite He.
  - sym_init HR [e_addr ex; e_addr ey; e_addr ep].
    rot_run HS HR. unfold addrs; by rewrite He.
  - sym_init HR [e_addr ex; e_addr ey; e_addr ep; e_addr eb].
    rot_run HS HR. unfold addrs; by rewrite He.
  - sym_init HR [e_addr ex; e_addr ey; e_addr ep].
    rot_run HS HR. unfold addrs; by rewrite He.
  - sym_init HR [e_addr ex; e_addr ey; e_addr ep; e_addr eb].
    rot_run HS HR. unfold addrs; by rewrite He.
Qed.

Lemma Rep_rotate_right (t : tree) ctx cx sx ex a cy sy ey b c :
  Rep t (fill ctx (N cy sy ey (N cx sx ex a b) c)) →
  Rep (_rotate_right t (e_addr ey))
      (fill ctx (N cx (sz a + (sz b + sz c + 1) + 1) ex a
                   (N cy (sz b + sz c + 1) ey b c)))
  ∧ Keep t (_rotate_right t (e_addr ey)).
Proof.
  intros HR.
  pose proof (Rep_read _ _ _ _ _ _ _ HR) as Hy.
  pose proof (Rep_read t (FL cy sy ey c :: ctx) _ _ _ _ _ HR) as Hx.
  pose proof (Rep_size t (FL cx sx ex b :: FL cy sy ey c :: ctx) a HR) as Hsa.
  pose proof (Rep_size t (FR cx sx ex a :: FL cy sy ey c :: ctx) b HR) as Hsb.
  pose proof (Rep_size t (FR cy sy ey (N cx sx ex a b) :: ctx) c HR) as Hsc.
  pose proof (R_nil_size _ _ HR) as Hsn.
  pose proof (R_nodup _ _ HR) as Hnd.
  pose proof (R_heap _ _ HR) as Hh.
  pose proof (Rep_nonnil _ _ HR) as Hnz.
  apply rep_fill in Hh as (Hc & _ & (_ & Ha & Hb) & Hcc).
  rewrite addrs_fill_perm in Hnd, Hnz.
  rewrite !addrs_N_perm in Hnd, Hnz.
  unfold size_, rd in *.
  assert (∀ ctx', ents (fill ctx' (N cx (sz a + (sz b + sz c + 1) + 1) ex a
                   (N cy (sz b + sz c + 1) ey b c))) =
          ents (fill ctx' (N cy sy ey (N cx sx ex a b) c))) as He.
  { intros. rewrite !ents_fill. simpl. repeat (rewrite <- ?app_assoc; simpl).
    reflexivity. }
  destruct ctx as [|[cp sp ep r|cp sp ep l] ctx]; destruct b as [|cb sb eb bl br];
    simpl in Hx, Hy, Hc, Hb;
    rewrite ?addrs_N_perm, ?caddrs_FL_perm, ?caddrs_FR_perm in Hnd, Hnz; splitH.
  - sym_init HR [e_addr ex; e_addr ey].
    rot_run HS HR. unfold addrs; by rewrite He.
  - sym_init HR [e_addr ex; e_addr ey; e_addr eb].
    rot_run HS HR. unfold addrs; by rewrite He.
  - sym_init HR [e_addr ex; e_addr ey; e_addr ep].
    rot_run HS HR. unfold addrs; by rewrite He.
  - sym_init HR [e_addr ex; e_addr ey; e_addr ep; e_addr eb].
    rot_run HS HR. unfold addrs; by rewrite He.
  - sym_init HR [e_addr ex; e_addr ey; e_addr ep].
    rot_run HS HR. unfold addrs; by rewrite He.
  - sym_init HR [e_addr ex; e_addr ey; e_addr ep; e_addr eb].
    rot_run HS HR. unfold addrs; by rewrite He.
Qed.


Fixpoint resize (ctx : list (@frame K)) (hs : Z) : list frame :=
  match ctx with
  | [] => []
  | FL c s e r :: ctx => FL c (hs + sz r + 1) e r :: resize ctx (hs + sz r + 1)
  | FR c s e l :: ctx => FR c (sz l + hs + 1) e l :: resize ctx (sz l + hs + 1)
  end.

Lemma Keep_wr (t : tree) a f : a ≠ nil → Keep t (wr t a f).
Proof.
  intros Ha. split; [by split|]. by apply heap_wr_ne.
Qed.

Lemma Rep_recompute_size (t : tree) ctx c s e l r :
  Rep t (fill ctx (N c s e l r)) →
  Rep (_recompute_size t (e_addr e)) (fill ctx (N c (sz l + sz r + 1) e l r))
  ∧ Keep t (_recompute_size t (e_addr e)).
Proof.
  intros HR. unfold _recompute_size. split.
  - apply (Rep_wr _ _ _ _ _ _ _ _ _ _ HR).
    unfold left_, right_. rewrite (Rep_read _ _ _ _ _ _ _ HR). simpl.
    rewrite (Rep_size t (FL c s e r :: ctx) l HR).
    rewrite (Rep_size t (FR c s e l :: ctx) r HR). done.
  - apply Keep_wr. by eapply Rep_notnil.
Qed.

Lemma Rep_update_sizes_upward n (t : tree) ctx X :
  Rep t (fill ctx X) → (length ctx < n)%nat →
  ∃ t', _update_sizes_upward n t (pa ctx) = Ok t'
        ∧ Rep t' (fill (resize ctx (sz X)) X) ∧ Keep t t'.
Proof.
  revert n t X. induction ctx as [|[c s e r|c s e l] ctx IH]; intros n t X HR Hn;
    (destruct n as [|n]; [simpl in Hn; lia|]); simpl in *.
  - exists t. split_and!; auto using Keep_refl.
  - pose proof (Rep_notnil _ _ _ _ _ _ _ HR) as Hnn.
    rewrite (is_nil_ne _ Hnn).
    destruct (Rep_recompute_size _ _ _ _ _ _ _ HR) as (HR1 & HK1).
    pose proof (Rep_read _ _ _ _ _ _ _ HR1) as Hrd.
    unfold parent_. rewrite Hrd. simpl.
    destruct (IH n _ _ HR1) as (t' & Hrun & HR' & HK'); [lia|].
    exists t'. split_and!; eauto using Keep_trans.
  - pose proof (Rep_notnil _ _ _ _ _ _ _ HR) as Hnn.
    rewrite (is_nil_ne _ Hnn).
    destruct (Rep_recompute_size _ _ _ _ _ _ _ HR) as (HR1 & HK1).
    pose proof (Rep_read _ _ _ _ _ _ _ HR1) as Hrd.
    unfold parent_. rewrite Hrd. simpl.
    destruct (IH n _ _ HR1) as (t' & Hrun & HR' & HK'); [lia|].
    exists t'. split_and!; eauto using Keep_trans.
Qed.
Lemma length_caddrs (ctx : list (@frame K)) : (length ctx ≤ length (caddrs ctx))%nat.
Proof.
  induction ctx as [|[c s e r|c s e l] ctx IH]; simpl; [lia| |].
  - rewrite caddrs_FL_perm. simpl. rewrite length_app. lia.
  - rewrite caddrs_FR_perm. simpl. rewrite length_app. lia.
Qed.

Lemma Rep_length (t : tree) W : Rep t W → (length (addrs W) ≤ brk t)%nat.
Proof.
  intros HR.
  transitivity (length (seq 0%nat (brk t))); [|by rewrite length_seq].
  apply submseteq_length, NoDup_submseteq; [apply (R_nodup _ _ HR)|].
  intros a Ha. apply (R_range _ _ HR) in Ha. apply elem_of_seq. lia.
Qed.

Lemma Rep_depth (t : tree) ctx X : Rep t (fill ctx X) → (length ctx ≤ brk t)%nat.
Proof.
  intros HR. apply Rep_length in HR.
  rewrite addrs_fill_perm, length_app in HR.
  pose proof (length_caddrs ctx). lia.
Qed.

Lemma Rep_blacken_root (t : tree) W :
  Rep t W → W ≠ L →
  Rep (wr t (root t) (with_color BLACK)) (tcol BLACK W)
  ∧ Keep t (wr t (root t) (with_color BLACK)).
Proof.
  intros HR HW. destruct W as [|c s e l r]; [done|].
  rewrite (R_root _ _ HR). simpl. split.
  - by apply (Rep_wr t [] c s e l r).
  - apply Keep_wr. by apply (Rep_notnil t [] c s e l r).
Qed.

Lemma fill_not_L (ctx : list (@frame K)) X : X ≠ L → fill ctx X ≠ L.
Proof.
  revert X. induction ctx as [|[c s e r|c s e l] ctx IH]; intros X HX; simpl; auto.
Qed.

Lemma fixup_exit n (t : tree) ctx c s e l r :
  Rep t (fill ctx (N c s e l r)) →
  match ctx with [] => True | p :: _ => f_color p = BLACK end →
  ∃ t', _insert_fixup (S n) t (e_addr e) = Ok t'
        ∧ Rep t' (tcol BLACK (fill ctx (N c s e l r))) ∧ Keep t t'.
Proof.
  intros HR Hc. rewrite _insert_fixup_eq.
  assert (color_ t (parent_ t (e_addr e)) = BLACK) as ->.
  { unfold parent_. rewrite (Rep_read _ _ _ _ _ _ _ HR). simpl.
    destruct ctx as [|[cp sp ep pr|cp sp ep pl] ctx]; simpl in *.
    - apply (R_nil_color _ _ HR).
    - unfold color_. by rewrite (Rep_read t ctx cp sp ep _ pr HR).
    - unfold color_. by rewrite (Rep_read t ctx cp sp ep pl _ HR). }
  eexists; split; [reflexivity|]. apply Rep_blacken_root; [done|].
  by apply fill_not_L.
Qed.

Lemma fixup_recolor n (t : tree) p g ctx c s e l r :
  Rep t (fill (p :: g :: ctx) (N c s e l r)) →
  f_color p = RED → tcolor (uncle g) = RED →
  ∃ t1, _insert_fixup (S n) t (e_addr e) = _insert_fixup n t1 (e_addr (f_ent g))
        ∧ Rep t1 (fill ctx (plug (recolor_g g) (plug (fcol BLACK p) (N c s e l r))))
        ∧ Keep t t1.
Proof.
  intros HR Hp Hu. rewrite _insert_fixup_eq.
  destruct p as [cp sp ep pr|cp sp ep pl], g as [cg sg eg [|cy sy ey yl yr]|cg sg eg [|cy sy ey yl yr]];
    simpl in Hp, Hu; try done; subst cp cy; simpl f_ent.
  - rep_facts HR.
    sym_init HR [e_addr e; e_addr ep; e_addr eg; e_addr ey].
    focus_run. hx HS.
    lazymatch goal with |- ?Q (_insert_fixup ?n ?tc ?a) => sx_term HS a end.
    unfocus. eexists. split; [reflexivity|]. simpl.
    rebuild HS HR. ents_tac.
  - rep_facts HR.
    sym_init HR [e_addr e; e_addr ep; e_addr eg; e_addr ey].
    focus_run. hx HS.
    lazymatch goal with |- ?Q (_insert_fixup ?n ?tc ?a) => sx_term HS a end.
    unfocus. eexists. split; [reflexivity|]. simpl.
    rebuild HS HR. ents_tac.
  - rep_facts HR.
    sym_init HR [e_addr e; e_addr ep; e_addr eg; e_addr ey].
    focus_run. hx HS.
    lazymatch goal with |- ?Q (_insert_fixup ?n ?tc ?a) => sx_term HS a end.
    unfocus. eexists. split; [reflexivity|]. simpl.
    rebuild HS HR. ents_tac.
  - rep_facts HR.
    sym_init HR [e_addr e; e_addr ep; e_addr eg; e_addr ey].
    focus_run. hx HS.
    lazymatch goal with |- ?Q (_insert_fixup ?n ?tc ?a) => sx_term HS a end.
    unfocus. eexists. split; [reflexivity|]. simpl.
    rebuild HS HR. ents_tac.
Qed.

Lemma fixup_rotate n (t : tree) p g ctx c s e l r :
  Rep t (fill (p :: g :: ctx) (N c s e l r)) →
  f_color p = RED → tcolor (uncle g) = BLACK →
  ∃ t', _insert_fixup (S (S n)) t (e_addr e) = Ok t'
        ∧ Rep t' (tcol BLACK (fill ctx (ins_rot p g (N c s e l r))))
        ∧ Keep t t'.
Proof.
  intros HR Hp Hu. rewrite _insert_fixup_eq.
  destruct p as [cp sp ep pr|cp sp ep pl], g as [cg sg eg y|cg sg eg y];
    simpl in Hp, Hu; subst cp.
  - rep_facts HR.
    sym_init HR [e_addr e; e_addr ep; e_addr eg].
    focus_run. hx HS.
    assert (Rep tc0 (fill ctx (N RED sg eg (N BLACK sp ep (N c s e l r) pr) y))
            ∧ Keep t tc0) as (HR1 & HK1).
    { rebuild HS HR. ents_tac. }
    destruct (Rep_rotate_right _ _ _ _ _ _ _ _ _ _ _ HR1) as (HR2 & HK2).
    unfocus.
    destruct (fixup_exit n _ (FL BLACK _ ep _ :: ctx) _ _ _ _ _ HR2) as (t' & Hrun & HR3 & HK3);
      [done|].
    exists t'. split; [exact Hrun|]. split; [exact HR3|].
    eauto using Keep_trans.
  - rep_facts HR.
    sym_init HR [e_addr e; e_addr ep; e_addr eg].
    focus_run. hx HS. sx_reads HS.
    destruct (Rep_rotate_right t (FR cg sg eg y :: ctx) c s e l RED sp ep r pr HR)
      as (HR1 & HK1).
    name_tree t1 (_rotate_right t (e_addr ep)). clear_sym.
    rep_facts HR1.
    sym_init HR1 [e_addr e; e_addr ep; e_addr eg].
    with_sym ltac:(fun HS => hx HS).
    assert (Rep tc0 (fill ctx (N RED sg eg y
              (N BLACK (sz l + (sz r + sz pr + 1) + 1) e l
                 (N RED (sz r + sz pr + 1) ep r pr))))
            ∧ Keep t1 tc0) as (HR2 & HK2).
    { with_sym ltac:(fun HS => rebuild HS HR1). ents_tac. }
    destruct (Rep_rotate_left _ _ _ _ _ _ _ _ _ _ _ HR2) as (HR3 & HK3).
    unfocus.
    destruct (fixup_exit n _ (FR BLACK _ e _ :: ctx) _ _ _ _ _ HR3) as (t' & Hrun & HR4 & HK4);
      [done|].
    exists t'. split; [exact Hrun|]. split; [exact HR4|].
    eauto using Keep_trans.
  - rep_facts HR.
    sym_init HR [e_addr e; e_addr ep; e_addr eg].
    focus_run. hx HS. sx_reads HS.
    destruct (Rep_rotate_left t (FL cg sg eg y :: ctx) RED sp ep pl c s e l r HR)
      as (HR1 & HK1).
    name_tree t1 (_rotate_left t (e_addr ep)). clear_sym.
    rep_facts HR1.
    sym_init HR1 [e_addr e; e_addr ep; e_addr eg].
    with_sym ltac:(fun HS => hx HS).
    assert (Rep tc0 (fill ctx (N RED sg eg
              (N BLACK (sz pl + sz l + 1 + sz r + 1) e
                 (N RED (sz pl + sz l + 1) ep pl l) r) y))
            ∧ Keep t1 tc0) as (HR2 & HK2).
    { with_sym ltac:(fun HS => rebuild HS HR1). ents_tac. }
    destruct (Rep_rotate_right _ _ _ _ _ _ _ _ _ _ _ HR2) as (HR3 & HK3).
    unfocus.
    destruct (fixup_exit n _ (FL BLACK _ e _ :: ctx) _ _ _ _ _ HR3) as (t' & Hrun & HR4 & HK4);
      [done|].
    exists t'. split; [exact Hrun|]. split; [exact HR4|].
    eauto using Keep_trans.
  - rep_facts HR.
    sym_init HR [e_addr e; e_addr ep; e_addr eg].
    focus_run. hx HS.
    assert (Rep tc0 (fill ctx (N RED sg eg y (N BLACK sp ep pl (N c s e l r))))
            ∧ Keep t tc0) as (HR1 & HK1).
    { rebuild HS HR. ents_tac. }
    destruct (Rep_rotate_left _ _ _ _ _ _ _ _ _ _ _ HR1) as (HR2 & HK2).
    unfocus.
    destruct (fixup_exit n _ (FR BLACK _ ep _ :: ctx) _ _ _ _ _ HR2) as (t' & Hrun & HR3 & HK3);
      [done|].
    exists t'. split; [exact Hrun|]. split; [exact HR3|].
    eauto using Keep_trans.
Qed.
Lemma root_black_tail (p g : @frame K) ctx :
  root_black (p :: g :: ctx) → root_black ctx.
Proof. unfold root_black. destruct ctx as [|f ctx]; [done|]. simpl. done. Qed.

Lemma Rep_insert_fixup m : ∀ (ctx : list (@frame K)), (length ctx ≤ m)%nat →
  ∀ n (t : tree) c s e l r,
  Rep t (fill ctx (N c s e l r)) → root_black ctx → (length ctx < n)%nat →
  ∃ t', _insert_fixup n t (e_addr e) = Ok t'
        ∧ Rep t' (ins_fix ctx (N c s e l r)) ∧ Keep t t'.
Proof.
  induction m as [|m IH]; intros ctx Hm n t c s e l r HR Hrb Hn.
  - destruct ctx; [|simpl in Hm; lia]. destruct n as [|n]; [simpl in Hn; lia|].
    by apply fixup_exit.
  - destruct ctx as [|p [|g ctx]].
    + destruct n as [|n]; [simpl in Hn; lia|]. by apply fixup_exit.
    + destruct n as [|n]; [simpl in Hn; lia|].
      apply (fixup_exit n t [p]); [done|]. exact Hrb.
    + destruct n as [|[|n]]; [simpl in Hn; lia..|].
      simpl ins_fix. destruct (f_color p) eqn:Hp.
      * destruct (tcolor (uncle g)) eqn:Hu.
        -- destruct (fixup_recolor (S n) t p g ctx c s e l r HR Hp Hu)
             as (t1 & -> & HR1 & HK1).
           assert (∃ c' s' e' l' r', plug (recolor_g g) (plug (fcol BLACK p) (N c s e l r))
                     = N c' s' e' l' r' ∧ e' = f_ent g) as (c' & s' & e' & l' & r' & Hz & ->).
           { destruct g; simpl; eauto 10. }
           rewrite Hz in *.
           destruct (IH ctx ltac:(simpl in Hm; lia) (S n) t1 _ _ _ _ _ HR1)
             as (t' & Hrun & HR' & HK').
           { by eapply root_black_tail. }
           { simpl in Hn. lia. }
           exists t'. split_and!; eauto using Keep_trans.
        -- by apply fixup_rotate.
      * apply (fixup_exit (S n) t (p :: g :: ctx)); [done|]. exact Hp.
Qed.

(** ** Insertion *)

(** [(key, uid) < (e.key, e.uid)] *)
Definition ent_lt (key : K) (uid : Z) (e : @ent K) : bool :=
  if py_eq key (e_key e) then uid <? e_uid e else py_lt key (e_key e).

(** The path of the descent of [insert], from the position [ctx] of [X]. *)
Fixpoint descend (key : K) (uid : Z) (ctx : list (@frame K)) (X : Tr) : list frame :=
  match X with
  | L => ctx
  | N c s e l r =>
      if ent_lt key uid e then descend key uid (FL c s e r :: ctx) l
      else descend key uid (FR c s e l :: ctx) r
  end.

(** The tree after [insert(key)], the new object being at [a]. *)
Definition ins_tree (key : K) (uid : Z) (a : addr) (W : Tr) : Tr :=
  ins_fix (resize (descend key uid [] W) 1) (N RED 1 (mkEnt a key uid) L L).

(** The side on which [insert] links the new node under its parent. *)
Definition side_ok (key : K) (uid : Z) (ctx : list (@frame K)) : Prop :=
  match ctx with
  | [] => True
  | FL _ _ e _ :: _ => ent_lt key uid e = true
  | FR _ _ e _ :: _ => ent_lt key uid e = false
  end.

Lemma fill_descend key uid (ctx : list (@frame K)) X :
  fill (descend key uid ctx X) L = fill ctx X.
Proof.
  revert ctx. induction X as [|c s e l IHl r IHr]; intros ctx; simpl; [done|].
  destruct (ent_lt key uid e); [apply IHl|apply IHr].
Qed.

Lemma side_ok_descend key uid (ctx : list (@frame K)) X :
  side_ok key uid ctx → side_ok key uid (descend key uid ctx X).
Proof.
  revert ctx. induction X as [|c s e l IHl r IHr]; intros ctx Hc; simpl; [done|].
  destruct (ent_lt key uid e) eqn:E; [apply IHl|apply IHr]; done.
Qed.

Lemma tuple_lt_cell key uid c s (e : @ent K) l r p :
  tuple_lt key uid (cell c s e l r p) = Ok (ent_lt key uid e).
Proof. done. Qed.

Lemma length_ents_N c s (e : @ent K) l r :
  length (ents (N c s e l r)) = S (length (ents l) + length (ents r)).
Proof. simpl. rewrite length_app. simpl. lia. Qed.

Lemma Rep_insert_descend n (t : tree) key uid : ∀ X ctx,
  Rep t (fill ctx X) → (length (ents X) < n)%nat →
  insert_descend n t key uid (pa ctx) (ra X) = Ok (pa (descend key uid ctx X)).
Proof.
  induction n as [|n IH]; intros X ctx HR Hn; [lia|].
  destruct X as [|c s e l r]; simpl; [done|].
  pose proof (Rep_notnil _ _ _ _ _ _ _ HR) as Hnn.
  pose proof (Rep_read _ _ _ _ _ _ _ HR) as Hrd.
  rewrite (is_nil_ne _ Hnn), Hrd, tuple_lt_cell. simpl.
  rewrite length_ents_N in Hn.
  unfold left_, right_. rewrite Hrd. simpl.
  destruct (ent_lt key uid e).
  - apply (IH l (FL c s e r :: ctx)); [exact HR|lia].
  - apply (IH r (FR c s e l :: ctx)); [exact HR|lia].
Qed.

(** A change of the counters or of the root field only. *)
Lemma Rep_ext (t t' : tree) W :
  heap t' = heap t → root t' = root t → brk t' = brk t → Rep t W → Rep t' W.
Proof.
  intros Hh Hr Hb [A B C D E F G H]. split; rewrite ?Hh, ?Hr, ?Hb; auto.
Qed.
Lemma heap_alloc_eq (t : tree) n : heap (alloc t n) (brk t) = n.
Proof. simpl. by rewrite Nat.eqb_refl. Qed.

Lemma heap_alloc_ne (t : tree) n a : a ≠ brk t → heap (alloc t n) a = heap t a.
Proof. intros Ha. simpl. by rewrite (proj2 (Nat.eqb_neq _ _)). Qed.

Lemma addrs_fill_leaf (ctx : list (@frame K)) c s e :
  addrs (fill ctx (N c s e L L)) ≡ₚ e_addr e :: addrs (fill ctx L).
Proof.
  rewrite !addrs_fill_perm.
  change (addrs (N c s e L L)) with [e_addr e].
  change (addrs (@L K)) with ([] : list addr).
  rewrite app_nil_r. by rewrite Permutation_app_comm.
Qed.

(** Linking the new node under the parent that the descent found. *)
Lemma Rep_link (t : tree) ctx key uid :
  Rep t (fill ctx L) → (0 < brk t)%nat → side_ok key uid ctx →
  ∃ t2,
    (let t1 := alloc t (mkNode (Some key) uid RED 1 nil nil (pa ctx)) in
     if is_nil (pa ctx) then Ok (set_root t1 (brk t))
     else
       b ←ᵣ tuple_lt key uid (rd t1 (pa ctx));
       Ok (if b then wr t1 (pa ctx) (with_left (brk t))
           else wr t1 (pa ctx) (with_right (brk t)))) = Ok t2
    ∧ Rep t2 (fill ctx (N RED 1 (mkEnt (brk t) key uid) L L))
    ∧ len t2 = len t ∧ next_uid t2 = next_uid t ∧ brk t2 = S (brk t).
Proof.
  intros HR Hb Hside.
  set (node := brk t).
  set (n0 := mkNode (Some key) uid RED 1 nil nil (pa ctx)).
  assert (node ≠ nil) as Hnn by (unfold node, nil; lia).
  assert (∀ a, a ∈ addrs (fill ctx L) → a ≠ node) as Hfresh.
  { intros a Ha. apply (R_range _ _ HR) in Ha. unfold node. lia. }
  assert (∀ a, a ∈ caddrs ctx → a ≠ node) as Hfc.
  { intros a Ha. apply Hfresh, elem_of_addrs_fill. by left. }
  pose proof (Rep_nil_ok _ _ HR) as (N1 & N2 & N3 & N4).
  pose proof (R_heap _ _ HR) as Hh. apply rep_fill in Hh as (Hc & _).
  (* what does not depend on the shape of [ctx] *)
  assert (∀ t2, root t2 = ra (fill ctx (N RED 1 (mkEnt node key uid) L L)) →
                rep (heap t2) nil (fill ctx (N RED 1 (mkEnt node key uid) L L)) →
                heap t2 nil = heap t nil → brk t2 = S (brk t) →
                Rep t2 (fill ctx (N RED 1 (mkEnt node key uid) L L))) as Hmk.
  { intros t2 Hroot Hrep Hnil Hbrk. split; auto; rewrite ?Hnil; auto.
    - rewrite addrs_fill_leaf. apply NoDup_cons. split; [|apply (R_nodup _ _ HR)].
      intros Hin. by apply (Hfresh _ Hin).
    - intros a. rewrite addrs_fill_leaf, Hbrk. intros [->|Ha]%elem_of_cons.
      + simpl. fold node. unfold nil in Hnn. lia.
      + apply (R_range _ _ HR) in Ha. lia. }
  destruct ctx as [|[c s e r|c s e l] ctx]; simpl pa; cbv zeta.
  - rewrite is_nil_nil. eexists. split; [reflexivity|]. split; [|done].
    apply Hmk; auto.
    + split; [|done]. apply heap_alloc_eq.
    + apply heap_alloc_ne. by apply not_eq_sym.
  - pose proof (Rep_notnil t ctx c s e L r HR) as Hen.
    pose proof (Rep_read t ctx c s e L r HR) as Hrd. unfold rd in Hrd. simpl in Hrd.
    pose proof (R_nodup _ _ HR) as Hnd. simpl in Hnd.
    apply NoDup_focus in Hnd as (D1 & _ & D3 & _ & D5).
    assert (e_addr e ≠ node) as Hne.
    { apply Hfc, elem_of_caddrs_FL. by left. }
    rewrite (is_nil_ne _ Hen). unfold rd.
    rewrite heap_alloc_ne by done. rewrite Hrd, tuple_lt_cell.
    simpl in Hside. rewrite Hside. simpl.
    eexists. split; [reflexivity|]. split; [|done].
    simpl in Hc. destruct Hc as (_ & Hr & Hc).
    apply Hmk; auto.
    + rewrite root_wr. simpl. rewrite (R_root _ _ HR), !ra_fill. done.
    + apply rep_fill. simpl. split_and!; try done.
      all: lazymatch goal with
        | |- repc _ _ _ =>
            eapply repc_frame; [|exact Hc]; intros a Ha;
            rewrite heap_wr_ne by (by intros ->);
            apply heap_alloc_ne, Hfc, elem_of_caddrs_FL; auto
        | |- rep _ _ _ =>
            eapply rep_frame; [|exact Hr]; intros a Ha;
            rewrite heap_wr_ne by (by intros ->);
            apply heap_alloc_ne, Hfc, elem_of_caddrs_FL; auto
        | |- heap _ _ = _ =>
            first [ rewrite heap_wr_eq, heap_alloc_ne, Hrd by done; done
                  | rewrite heap_wr_ne by (by apply not_eq_sym);
                    by rewrite heap_alloc_eq ]
        end.
    + rewrite heap_wr_ne by (by apply not_eq_sym).
      apply heap_alloc_ne. by apply not_eq_sym.
  - pose proof (Rep_notnil t ctx c s e l L HR) as Hen.
    pose proof (Rep_read t ctx c s e l L HR) as Hrd. unfold rd in Hrd. simpl in Hrd.
    pose proof (R_nodup _ _ HR) as Hnd. simpl in Hnd.
    apply NoDup_focus in Hnd as (D1 & D2 & _ & _ & D5).
    assert (e_addr e ≠ node) as Hne.
    { apply Hfc, elem_of_caddrs_FR. by left. }
    rewrite (is_nil_ne _ Hen). unfold rd.
    rewrite heap_alloc_ne by done. rewrite Hrd, tuple_lt_cell.
    simpl in Hside. rewrite Hside. simpl.
    eexists. split; [reflexivity|]. split; [|done].
    simpl in Hc. destruct Hc as (_ & Hr & Hc).
    apply Hmk; auto.
    + rewrite root_wr. simpl. rewrite (R_root _ _ HR), !ra_fill. done.
    + apply rep_fill. simpl. split_and!; try done.
      all: lazymatch goal with
        | |- repc _ _ _ =>
            eapply repc_frame; [|exact Hc]; intros a Ha;
            rewrite heap_wr_ne by (by intros ->);
            apply heap_alloc_ne, Hfc, elem_of_caddrs_FR; auto
        | |- rep _ _ _ =>
            eapply rep_frame; [|exact Hr]; intros a Ha;
            rewrite heap_wr_ne by (by intros ->);
            apply heap_alloc_ne, Hfc, elem_of_caddrs_FR; auto
        | |- heap _ _ = _ =>
            first [ rewrite heap_wr_eq, heap_alloc_ne, Hrd by done; done
                  | rewrite heap_wr_ne by (by apply not_eq_sym);
                    by rewrite heap_alloc_eq ]
        end.
    + rewrite heap_wr_ne by (by apply not_eq_sym).
      apply heap_alloc_ne. by apply not_eq_sym.
Qed.
Lemma colors_resize (ctx : list (@frame K)) h :
  f_color <$> resize ctx h = f_color <$> ctx.
Proof.
  revert h. induction ctx as [|[c s e r|c s e l] ctx IH]; intros h; simpl;
    [done|by rewrite IH..].
Qed.

Lemma length_resize (ctx : list (@frame K)) h : length (resize ctx h) = length ctx.
Proof.
  revert h. induction ctx as [|[c s e r|c s e l] ctx IH]; intros h; simpl;
    [done|by rewrite IH..].
Qed.

Lemma root_black_colors (ctx : list (@frame K)) :
  root_black ctx ↔ match last (f_color <$> ctx) with
                   | Some c => c = BLACK
                   | None => True
                   end.
Proof. unfold root_black. rewrite fmap_last. by destruct (last ctx). Qed.

Lemma root_black_resize (ctx : list (@frame K)) h :
  root_black ctx → root_black (resize ctx h).
Proof. rewrite !root_black_colors. by rewrite colors_resize. Qed.

Lemma last_descend key uid X : ∀ (f : @frame K) ctx,
  last (descend key uid (f :: ctx) X) = last (f :: ctx).
Proof.
  induction X as [|c s e l IHl r IHr]; intros f ctx; simpl descend; [done|].
  destruct (ent_lt key uid e); [rewrite IHl|rewrite IHr]; by rewrite last_cons_cons.
Qed.

Lemma root_black_descend key uid (W : @Tr K) :
  tcolor W = BLACK → root_black (descend key uid [] W).
Proof.
  unfold root_black. destruct W as [|c s e l r]; simpl; [done|]. intros ->.
  destruct (ent_lt key uid e); by rewrite last_descend.
Qed.

Lemma rbind_Ok {A B} (x : A) (f : A → result B) : rbind (Ok x) f = f x.
Proof. done. Qed.

Lemma Rep_insert key (t : tree) W :
  Rep t W → (0 < brk t)%nat → tcolor W = BLACK →
  ∃ t', insert key t = Ok t'
        ∧ Rep t' (ins_tree key (next_uid t) (brk t) W)
        ∧ len t' = len t + 1 ∧ next_uid t' = next_uid t + 1
        ∧ brk t' = S (brk t).
Proof.
  intros HR Hb Hc. unfold insert, ins_tree.
  set (uid := next_uid t).
  set (ctx := descend key uid [] W).
  set (t0 := set_next_uid t (uid + 1)).
  assert (Rep t0 W) as HR0 by (by apply (Rep_ext t)).
  cbv zeta.
  pose proof (Rep_length _ _ HR0) as Hlen. unfold addrs in Hlen.
  rewrite length_fmap in Hlen.
  pose proof (Rep_insert_descend (fuel t0) t0 key uid W [] HR0) as Hd.
  simpl pa in Hd. rewrite <- (R_root _ _ HR0) in Hd.
  rewrite Hd by (unfold fuel; lia). fold ctx. rewrite rbind_Ok.
  assert (Rep t0 (fill ctx L)) as HR0'.
  { unfold ctx. by rewrite fill_descend. }
  destruct (Rep_link t0 ctx key uid HR0' Hb) as (t2 & Hlink & HR2 & L2 & U2 & B2).
  { by apply side_ok_descend. }
  cbv zeta in Hlink. rewrite Hlink. rewrite rbind_Ok.
  set (t3 := set_len t2 (len t2 + 1)).
  assert (Rep t3 (fill ctx (N RED 1 (mkEnt (brk t0) key uid) L L))) as HR3
    by (by apply (Rep_ext t2)).
  assert (parent_ t3 (brk t0) = pa ctx) as ->.
  { pose proof (Rep_read t3 ctx RED 1 (mkEnt (brk t0) key uid) L L HR3) as Hrd.
    apply (f_equal n_parent) in Hrd. exact Hrd. }
  pose proof (Rep_depth _ _ _ HR3) as Hdep.
  destruct (Rep_update_sizes_upward (fuel t3) t3 ctx _ HR3)
    as (t4 & Hup & HR4 & (L4 & U4 & B4) & _).
  { unfold fuel. lia. }
  rewrite Hup. rewrite rbind_Ok.
  destruct (Rep_insert_fixup (length (resize ctx 1)) (resize ctx 1) (le_n _)
              (fuel t4) t4 _ _ _ _ _ HR4)
    as (t5 & Hfix & HR5 & (L5 & U5 & B5) & _).
  { apply root_black_resize, root_black_descend, Hc. }
  { rewrite length_resize. unfold fuel. lia. }
  exists t5. split; [exact Hfix|]. split; [exact HR5|].
  rewrite L5, U5, B5, L4, U4, B4. simpl. rewrite L2, U2, B2. simpl. done.
Qed.

(** ** The in-order sequence through the pure operations *)

Lemma fill_cons (f : @frame K) ctx X : fill (f :: ctx) X = fill ctx (plug f X).
Proof. by destruct f. Qed.

Lemma ents_fill_congr (ctx : list (@frame K)) X Y :
  ents X = ents Y → ents (fill ctx X) = ents (fill ctx Y).
Proof. intros E. by rewrite !ents_fill, E. Qed.

Lemma ents_plug_congr (f : @frame K) X Y :
  ents X = ents Y → ents (plug f X) = ents (plug f Y).
Proof. intros E. destruct f; simpl; by rewrite E. Qed.

Lemma ents_tcol c (X : @Tr K) : ents (tcol c X) = ents X.
Proof. by destruct X. Qed.

Lemma ents_plug_fcol c (f : @frame K) X : ents (plug (fcol c f) X) = ents (plug f X).
Proof. by destruct f. Qed.

Lemma ents_plug_recolor_g (g : @frame K) X : ents (plug (recolor_g g) X) = ents (plug g X).
Proof. destruct g; simpl; by rewrite ents_tcol. Qed.

Lemma ents_rotL (X : @Tr K) : ents (rotL X) = ents X.
Proof.
  destruct X as [|cx sx ex a [|cy sy ey b c]]; simpl; try done.
  by rewrite <- !app_assoc.
Qed.

Lemma ents_rotR (X : @Tr K) : ents (rotR X) = ents X.
Proof.
  destruct X as [|cy sy ey [|cx sx ex a b] c]; simpl; try done.
  by rewrite <- !app_assoc.
Qed.

Lemma ents_ins_rot (p g : @frame K) z :
  ents (ins_rot p g z) = ents (plug g (plug p z)).
Proof.
  destruct g, p; unfold ins_rot;
    rewrite ?ents_rotL, ?ents_rotR, ents_plug_fcol;
    apply ents_plug_congr; rewrite ents_tcol, ?ents_rotL, ?ents_rotR; done.
Qed.

Lemma ents_ins_fix m : ∀ (ctx : list (@frame K)) z, (length ctx ≤ m)%nat →
  ents (ins_fix ctx z) = ents (fill ctx z).
Proof.
  induction m as [|m IH]; intros ctx z Hm.
  - destruct ctx; [|simpl in Hm; lia]. simpl. by rewrite ents_tcol.
  - destruct ctx as [|p [|g ctx]]; simpl ins_fix; try by rewrite ents_tcol.
    destruct (f_color p); [|by rewrite ents_tcol].
    destruct (tcolor (uncle g)).
    + rewrite IH by (simpl in Hm; lia). rewrite !fill_cons.
      apply ents_fill_congr. rewrite ents_plug_recolor_g.
      apply ents_plug_congr, ents_plug_fcol.
    + rewrite ents_tcol, !fill_cons. apply ents_fill_congr, ents_ins_rot.
Qed.

Lemma lefts_resize (ctx : list (@frame K)) h : lefts (resize ctx h) = lefts ctx.
Proof.
  revert h. induction ctx as [|[c s e r|c s e l] ctx IH]; intros h; simpl;
    [done|by rewrite IH..].
Qed.

Lemma rights_resize (ctx : list (@frame K)) h : rights (resize ctx h) = rights ctx.
Proof.
  revert h. induction ctx as [|[c s e r|c s e l] ctx IH]; intros h; simpl;
    [done|by rewrite IH..].
Qed.

(** [insert] puts the new entry between the two sides of its path. *)
Lemma ents_ins_tree key uid a (W : @Tr K) :
  let ctx := descend key uid [] W in
  ents W = lefts ctx ++ rights ctx
  ∧ ents (ins_tree key uid a W) = lefts ctx ++ mkEnt a key uid :: rights ctx.
Proof.
  intros ctx. split.
  - pose proof (f_equal ents (fill_descend key uid [] W)) as E.
    fold ctx in E. rewrite ents_fill in E. simpl in E. by rewrite <- E.
  - unfold ins_tree. fold ctx. rewrite (ents_ins_fix _ _ _ (le_n _)).
    by rewrite ents_fill, lefts_resize, rights_resize.
Qed.

(** The root is black after [_insert_fixup]. *)
Lemma tcolor_tcol_BLACK (X : @Tr K) : tcolor (tcol BLACK X) = BLACK.
Proof. by destruct X. Qed.

Lemma tcolor_ins_fix m : ∀ (ctx : list (@frame K)) z, (length ctx ≤ m)%nat →
  tcolor (ins_fix ctx z) = BLACK.
Proof.
  induction m as [|m IH]; intros ctx z Hm.
  - destruct ctx; [|simpl in Hm; lia]. apply tcolor_tcol_BLACK.
  - destruct ctx as [|p [|g ctx]]; simpl ins_fix; try apply tcolor_tcol_BLACK.
    destruct (f_color p); [|apply tcolor_tcol_BLACK].
    destruct (tcolor (uncle g)); [|apply tcolor_tcol_BLACK].
    apply IH. simpl in Hm. lia.
Qed.

Lemma tcolor_ins_tree key uid a (W : @Tr K) : tcolor (ins_tree key uid a W) = BLACK.
Proof. unfold ins_tree. by eapply tcolor_ins_fix. Qed.
(** ** Trees built by insertions *)

Definition keys (X : @Tr K) : list K := e_key <$> ents X.

Lemma Rep_inorder_nodes n (t : tree) : ∀ X ctx,
  Rep t (fill ctx X) → (length (ents X) < n)%nat →
  _inorder_nodes n t (ra X) = Ok (Some <$> keys X).
Proof.
  induction n as [|n IH]; intros X ctx HR Hn; [lia|].
  destruct X as [|c s e l r]; simpl; [done|].
  pose proof (Rep_notnil _ _ _ _ _ _ _ HR) as Hnn.
  pose proof (Rep_read _ _ _ _ _ _ _ HR) as Hrd.
  rewrite length_ents_N in Hn.
  rewrite (is_nil_ne _ Hnn). unfold left_, right_. rewrite Hrd. simpl.
  rewrite (IH l (FL c s e r :: ctx)) by (done || lia). rewrite rbind_Ok.
  rewrite (IH r (FR c s e l :: ctx)) by (done || lia). rewrite rbind_Ok.
  unfold keys. simpl. by rewrite !fmap_app.
Qed.

Lemma Rep_inorder (t : tree) W : Rep t W → inorder t = Ok (Some <$> keys W).
Proof.
  intros HR. unfold inorder. rewrite (R_root _ _ HR).
  apply (Rep_inorder_nodes _ t W []); [done|].
  pose proof (Rep_length _ _ HR) as Hl. unfold addrs in Hl.
  rewrite length_fmap in Hl. unfold fuel. lia.
Qed.

(** ** The size augmentation *)

(** Every node stores the size of its subtree. *)
Fixpoint sized (X : @Tr K) : Prop :=
  match X with
  | L => True
  | N _ s _ l r => s = sz l + sz r + 1 ∧ sized l ∧ sized r
  end.

(** The same along a path, the subtree in the hole having size [h]. *)
Fixpoint ctx_sized (ctx : list (@frame K)) (h : Z) : Prop :=
  match ctx with
  | [] => True
  | FL _ s _ r :: ctx => s = h + sz r + 1 ∧ sized r ∧ ctx_sized ctx s
  | FR _ s _ l :: ctx => s = sz l + h + 1 ∧ sized l ∧ ctx_sized ctx s
  end.

Definition sibs_sized (ctx : list (@frame K)) : Prop :=
  Forall (λ f, sized (uncle f)) ctx.

Lemma sized_sz (X : @Tr K) : sized X → sz X = Z.of_nat (length (ents X)).
Proof.
  induction X as [|c s e l IHl r IHr]; simpl; [done|].
  intros (-> & Hl & Hr). rewrite IHl, IHr, length_app by done. simpl. lia.
Qed.

Lemma sized_fill (ctx : list (@frame K)) X :
  sized (fill ctx X) ↔ sized X ∧ ctx_sized ctx (sz X).
Proof.
  revert X. induction ctx as [|[c s e r|c s e l] ctx IH]; intros X; simpl.
  - tauto.
  - rewrite IH. simpl. tauto.
  - rewrite IH. simpl. tauto.
Qed.

Lemma ctx_sized_sibs (ctx : list (@frame K)) h : ctx_sized ctx h → sibs_sized ctx.
Proof.
  revert h. induction ctx as [|[c s e r|c s e l] ctx IH]; intros h; simpl.
  - constructor.
  - intros (_ & Hr & Hc). constructor; [done|by eapply IH].
  - intros (_ & Hr & Hc). constructor; [done|by eapply IH].
Qed.

Lemma ctx_sized_resize (ctx : list (@frame K)) h :
  sibs_sized ctx → ctx_sized (resize ctx h) h.
Proof.
  revert h. induction ctx as [|[c s e r|c s e l] ctx IH]; intros h Hs; simpl;
    [done|inversion_clear Hs; split_and!; auto..].
Qed.

Lemma sized_fill_congr (ctx : list (@frame K)) X Y :
  sized (fill ctx X) → sized Y → sz Y = sz X → sized (fill ctx Y).
Proof. rewrite !sized_fill. intros (_ & Hc) HY ->. done. Qed.

Lemma sized_tcol c (X : @Tr K) : sized (tcol c X) ↔ sized X.
Proof. by destruct X. Qed.
Lemma sz_tcol c (X : @Tr K) : sz (tcol c X) = sz X.
Proof. by destruct X. Qed.

Lemma sized_rotL (X : @Tr K) : sized X → sized (rotL X) ∧ sz (rotL X) = sz X.
Proof.
  destruct X as [|cx sx ex a [|cy sy ey b c]]; simpl; try done.
  intros (-> & Ha & -> & Hb & Hc). split_and!; auto; lia.
Qed.

Lemma sized_rotR (X : @Tr K) : sized X → sized (rotR X) ∧ sz (rotR X) = sz X.
Proof.
  destruct X as [|cy sy ey [|cx sx ex a b] c]; simpl; try done.
  intros (-> & (-> & Ha & Hb) & Hc). split_and!; auto; lia.
Qed.

Lemma sized_plug_congr (f f' : @frame K) X Y :
  sized (plug f X) → sized Y → sz Y = sz X →
  (∃ c, f' = fcol c f) →
  sized (plug f' Y) ∧ sz (plug f' Y) = sz (plug f X).
Proof.
  intros HX HY E (c & ->). destruct f; simpl in *; rewrite E; tauto.
Qed.

Lemma sized_plug_inv (f : @frame K) X : sized (plug f X) → sized X.
Proof. destruct f; simpl; tauto. Qed.

Lemma fcol_id (f : @frame K) : ∃ c, f = fcol c f.
Proof. destruct f as [c ? ? ?|c ? ? ?]; by exists c. Qed.

Lemma sized_ins_rot (p g : @frame K) z :
  sized (plug g (plug p z)) →
  sized (ins_rot p g z) ∧ sz (ins_rot p g z) = sz (plug g (plug p z)).
Proof.
  intros H. pose proof (sized_plug_inv _ _ H) as Hp.
  destruct (sized_rotL _ Hp) as (HL1 & EL1).
  destruct (sized_rotR _ Hp) as (HR1 & ER1).
  assert (∀ A, sized A → sz A = sz (plug p z) →
            sized (plug (fcol RED g) (tcol BLACK A))
            ∧ sz (plug (fcol RED g) (tcol BLACK A)) = sz (plug g (plug p z))) as Hk.
  { intros A HA EA. apply sized_plug_congr; eauto.
    - by apply sized_tcol.
    - by rewrite sz_tcol. }
  destruct g, p; unfold ins_rot.
  - destruct (Hk _ Hp eq_refl) as (H1 & E1).
    destruct (sized_rotR _ H1) as (? & ?). split; [done|congruence].
  - destruct (Hk _ HL1 EL1) as (H1 & E1).
    destruct (sized_rotR _ H1) as (? & ?). split; [done|congruence].
  - destruct (Hk _ HR1 ER1) as (H1 & E1).
    destruct (sized_rotL _ H1) as (? & ?). split; [done|congruence].
  - destruct (Hk _ Hp eq_refl) as (H1 & E1).
    destruct (sized_rotL _ H1) as (? & ?). split; [done|congruence].
Qed.

Lemma sized_recolor (p g : @frame K) z :
  sized (plug g (plug p z)) →
  sized (plug (recolor_g g) (plug (fcol BLACK p) z))
  ∧ sz (plug (recolor_g g) (plug (fcol BLACK p) z)) = sz (plug g (plug p z)).
Proof.
  destruct g as [cg sg eg y|cg sg eg y], p as [cp sp ep q|cp sp ep q]; simpl;
    rewrite ?sized_tcol, ?sz_tcol; tauto.
Qed.

Lemma sized_ins_fix m : ∀ (ctx : list (@frame K)) z, (length ctx ≤ m)%nat →
  sized (fill ctx z) → sized (ins_fix ctx z).
Proof.
  induction m as [|m IH]; intros ctx z Hm Hs.
  - destruct ctx; [|simpl in Hm; lia]. simpl. by apply sized_tcol.
  - destruct ctx as [|p [|g ctx]]; simpl ins_fix; try by apply sized_tcol.
    destruct (f_color p); [|by apply sized_tcol].
    rewrite !fill_cons in Hs.
    pose proof (proj1 (proj1 (sized_fill _ _) Hs)) as Hg.
    destruct (tcolor (uncle g)).
    + apply IH; [simpl in Hm; lia|].
      destruct (sized_recolor p g z Hg) as (H1 & E1).
      by eapply sized_fill_congr.
    + apply sized_tcol. destruct (sized_ins_rot p g z Hg) as (H1 & E1).
      by eapply sized_fill_congr.
Qed.

Lemma sized_ins_tree key uid a (W : @Tr K) : sized W → sized (ins_tree key uid a W).
Proof.
  intros Hs. unfold ins_tree.
  apply (sized_ins_fix _ _ _ (le_n _)).
  apply sized_fill. split; [simpl; split_and!; auto; lia|].
  apply ctx_sized_resize.
  change W with (fill [] W) in Hs.
  rewrite <- (fill_descend key uid [] W) in Hs.
  apply sized_fill in Hs as (_ & Hc). by eapply ctx_sized_sibs.
Qed.

(** What every tree built by [insert] from the empty tree satisfies: it is
    the store of a tree with a black root and with the right sizes, and
    [_size] counts its nodes. *)
Definition Inv (t : tree) (W : Tr) : Prop :=
  Rep t W ∧ (0 < brk t)%nat ∧ tcolor W = BLACK
  ∧ len t = Z.of_nat (length (ents W)) ∧ sized W.

Lemma Inv_empty : Inv (@empty K) L.
Proof.
  split; [|by repeat split; simpl; lia].
  split; simpl; auto; try done.
  - apply NoDup_nil_2.
  - intros a Ha. by apply elem_of_nil in Ha.
Qed.

Lemma Inv_insert key (t : tree) W :
  Inv t W →
  ∃ t', insert key t = Ok t' ∧ Inv t' (ins_tree key (next_uid t) (brk t) W).
Proof.
  intros (HR & Hb & Hc & Hl & Hs).
  destruct (Rep_insert key t W HR Hb Hc) as (t' & Hins & HR' & L' & U' & B').
  exists t'. split; [done|]. split; [done|]. split; [lia|].
  split; [apply tcolor_ins_tree|]. split; [|by apply sized_ins_tree].
  destruct (ents_ins_tree key (next_uid t) (brk t) W) as (E1 & E2).
  rewrite L', Hl, E1, E2, !length_app. simpl. lia.
Qed.

Lemma keys_ins_tree key uid a (W : @Tr K) : keys (ins_tree key uid a W) ≡ₚ key :: keys W.
Proof.
  destruct (ents_ins_tree key uid a W) as (E1 & E2). unfold keys.
  rewrite E2, E1 at 1. rewrite !fmap_app. simpl. symmetry. apply Permutation_middle.
Qed.

Lemma Inv_insert_all items : ∀ (t : tree) W,
  Inv t W →
  ∃ t' W', insert_all items t = Ok t' ∧ Inv t' W' ∧ keys W' ≡ₚ keys W ++ items.
Proof.
  induction items as [|k items IH]; intros t W HI; simpl.
  - exists t, W. by rewrite app_nil_r.
  - destruct (Inv_insert k t W HI) as (t1 & -> & HI1). rewrite rbind_Ok.
    destruct (IH _ _ HI1) as (t' & W' & Hrun & HI' & Hp).
    exists t', W'. split_and!; [done..|].
    rewrite Hp, keys_ins_tree. simpl. apply Permutation_middle.
Qed.

(** X1: building a tree from any items succeeds; [len] is their number and
    the iteration yields each of them as often as it was given, whatever the
    comparisons of the keys answer. *)
Theorem tree_of_items (items : list K) :
  ∃ t l, insert_all items empty = Ok t
         ∧ len t = Z.of_nat (length items)
         ∧ inorder t = Ok (Some <$> l)
         ∧ l ≡ₚ items.
Proof.
  destruct (Inv_insert_all items empty L Inv_empty) as (t & W & Hrun & HI & Hp).
  destruct HI as (HR & _ & _ & Hl & _).
  exists t, (keys W). split_and!; [done| |by apply Rep_inorder|done].
  simpl in Hp. rewrite Hl. f_equal.
  rewrite <- (length_fmap e_key (ents W)). fold (keys W). by rewrite Hp.
Qed.

(** ** The nodes of the tree in the store *)

(** The objects that the tree holds: those reached from [_root] through
    [left] and [right], the sentinel excluded. *)
Inductive reach (t : tree) : addr → Prop :=
| reach_root : root t ≠ nil → reach t (root t)
| reach_left a : reach t a → left_ t a ≠ nil → reach t (left_ t a)
| reach_right a : reach t a → right_ t a ≠ nil → reach t (right_ t a).

Lemma zipper_of a : ∀ (X : @Tr K) ctx,
  a ∈ addrs X →
  ∃ ctx' c s e l r, fill ctx X = fill ctx' (N c s e l r) ∧ e_addr e = a.
Proof.
  induction X as [|c s e l IHl r IHr]; intros ctx Ha.
  - by apply elem_of_nil in Ha.
  - apply elem_of_addrs_N in Ha as [->|[Ha|Ha]].
    + by exists ctx, c, s, e, l, r.
    + apply (IHl (FL c s e r :: ctx) Ha).
    + apply (IHr (FR c s e l :: ctx) Ha).
Qed.

Lemma ra_elem_of (X : @Tr K) : ra X ≠ nil → ra X ∈ addrs X.
Proof. by destruct (ra_cases X). Qed.

Lemma Rep_reach (t : tree) W a : Rep t W → reach t a → a ∈ addrs W.
Proof.
  intros HR. induction 1 as [Hr|a Ha IH Hl|a Ha IH Hr].
  - rewrite (R_root _ _ HR) in *. by apply ra_elem_of.
  - destruct (zipper_of a W [] IH) as (ctx & c & s & e & l & r & E & <-).
    simpl in E. rewrite E in *.
    unfold left_ in *. rewrite (Rep_read _ _ _ _ _ _ _ HR) in *. simpl in *.
    apply elem_of_addrs_fill. right. apply elem_of_addrs_N. right. left.
    by apply ra_elem_of.
  - destruct (zipper_of a W [] IH) as (ctx & c & s & e & l & r & E & <-).
    simpl in E. rewrite E in *.
    unfold right_ in *. rewrite (Rep_read _ _ _ _ _ _ _ HR) in *. simpl in *.
    apply elem_of_addrs_fill. right. apply elem_of_addrs_N. right. right.
    by apply ra_elem_of.
Qed.

Lemma Rep_sized_node (t : tree) W a :
  Rep t W → sized W → a ∈ addrs W →
  size_ t a = size_ t (left_ t a) + size_ t (right_ t a) + 1.
Proof.
  intros HR Hs Ha.
  destruct (zipper_of a W [] Ha) as (ctx & c & s & e & l & r & E & <-).
  simpl in E. rewrite E in *.
  apply sized_fill in Hs as ((Hs & _ & _) & _).
  unfold left_, right_. rewrite (Rep_read _ _ _ _ _ _ _ HR). simpl.
  rewrite (Rep_size t (FL c s e r :: ctx) l HR).
  rewrite (Rep_size t (FR c s e l :: ctx) r HR).
  pose proof (Rep_size t ctx (N c s e l r) HR) as E1. simpl in E1.
  rewrite E1. done.
Qed.

(** X2: in a tree built by insertions, every node stores
    [left.size + right.size + 1], and the size stored at the root (0 at the
    sentinel, for the empty tree) is [len]. *)
Theorem sizes_after_inserts (items : list K) :
  ∃ t, insert_all items empty = Ok t
       ∧ (∀ a, reach t a →
            size_ t a = size_ t (left_ t a) + size_ t (right_ t a) + 1)
       ∧ size_ t (root t) = len t.
Proof.
  destruct (Inv_insert_all items empty L Inv_empty) as (t & W & Hrun & HI & _).
  destruct HI as (HR & _ & _ & Hl & Hs).
  exists t. split_and!; [done| |].
  - intros a Ha. eapply Rep_sized_node; eauto using Rep_reach.
  - rewrite (R_root _ _ HR), (Rep_size t [] W HR), Hl. by apply sized_sz.
Qed.

(** ** The queries by position *)

Lemma sized_N_sz c s (e : @ent K) l r :
  sized (N c s e l r) →
  sized l ∧ sized r ∧ sz l = Z.of_nat (length (ents l)).
Proof. intros (_ & Hl & Hr). split_and!; auto. by apply sized_sz. Qed.

Lemma Rep_select_node n (t : tree) : ∀ (X : @Tr K) ctx k e,
  Rep t (fill ctx X) → sized X → ents X !! k = Some e →
  (length (ents X) < n)%nat →
  _select_node n t (ra X) (Z.of_nat k) = Ok (e_addr e)
  ∧ n_key (rd t (e_addr e)) = Some (e_key e).
Proof.
  induction n as [|n IH]; intros X ctx k e' HR Hs Hk Hn; [lia|].
  destruct X as [|c s e l r]; [done|].
  pose proof (Rep_notnil _ _ _ _ _ _ _ HR) as Hnn.
  pose proof (Rep_read _ _ _ _ _ _ _ HR) as Hrd.
  pose proof (Rep_size t (FL c s e r :: ctx) l HR) as Hsl.
  apply sized_N_sz in Hs as (Hl & Hr & El).
  rewrite length_ents_N in Hn.
  simpl. rewrite (is_nil_ne _ Hnn). unfold left_, right_ in *. rewrite Hrd. simpl.
  rewrite Hsl, El. simpl in Hk.
  destruct (decide (k < length (ents l))%nat) as [H1|H1].
  - rewrite (proj2 (Z.ltb_lt _ _)) by lia.
    rewrite lookup_app_l in Hk by done.
    apply (IH l (FL c s e r :: ctx)); auto. lia.
  - rewrite (proj2 (Z.ltb_ge _ _)) by lia.
    rewrite lookup_app_r in Hk by lia.
    destruct (decide (k = length (ents l))) as [->|H2].
    + rewrite Z.eqb_refl. rewrite Nat.sub_diag in Hk. simpl in Hk.
      injection Hk as <-. split; [done|]. unfold rd in *. by rewrite Hrd.
    + rewrite (proj2 (Z.eqb_neq _ _)) by lia.
      destruct (k - length (ents l))%nat as [|j] eqn:Ej; [lia|]. simpl in Hk.
      replace (Z.of_nat k - (Z.of_nat (length (ents l)) + 1)) with (Z.of_nat j) by lia.
      apply (IH r (FR c s e l :: ctx)); auto. lia.
Qed.

Lemma Inv_select (t : tree) W k :
  Inv t W →
  select k t = if (k <? 0) || (k >=? len t) then Raise IndexError
               else Ok (keys W !! Z.to_nat k).
Proof.
  intros (HR & _ & _ & Hl & Hs). unfold select.
  destruct ((k <? 0) || (k >=? len t)) eqn:E; [done|].
  apply orb_false_elim in E as (E1 & E2).
  apply Z.ltb_ge in E1. rewrite Z.geb_leb in E2. apply Z.leb_gt in E2.
  destruct (lookup_lt_is_Some_2 (ents W) (Z.to_nat k)) as (e & He); [lia|].
  rewrite (R_root _ _ HR). rewrite <- (Z2Nat.id k) at 1 by done.
  pose proof (Rep_length _ _ HR) as Hlen. unfold addrs in Hlen.
  rewrite length_fmap in Hlen.
  destruct (Rep_select_node (fuel t) t W [] _ e HR Hs He) as (-> & Hkey).
  { unfold fuel; lia. }
  rewrite rbind_Ok, Hkey. unfold keys. by rewrite list_lookup_fmap, He.
Qed.

(** X4: on a tree built from [items], [select k] is the element at
    position [k] of the iteration, and an [IndexError] when [k] is not a
    position of it. *)
Theorem select_after_inserts (items : list K) :
  ∃ t l, insert_all items empty = Ok t
         ∧ inorder t = Ok (Some <$> l)
         ∧ l ≡ₚ items
         ∧ ∀ k, select k t =
                  if (k <? 0) || (k >=? Z.of_nat (length items))
                  then Raise IndexError else Ok (l !! Z.to_nat k).
Proof.
  destruct (Inv_insert_all items empty L Inv_empty) as (t & W & Hrun & HI & Hp).
  exists t, (keys W). split_and!; [done|by apply Rep_inorder, HI|done|].
  intros k. rewrite (Inv_select t W k HI).
  destruct HI as (_ & _ & _ & -> & _).
  rewrite <- (length_fmap e_key (ents W)). fold (keys W).
  simpl in Hp. by rewrite (Permutation_length Hp).
Qed.
Lemma zipper_of_ent (e : @ent K) : ∀ (X : @Tr K) ctx,
  e ∈ ents X →
  ∃ ctx' c s l r, fill ctx X = fill ctx' (N c s e l r).
Proof.
  induction X as [|c s e0 l IHl r IHr]; intros ctx He.
  - by apply elem_of_nil in He.
  - simpl in He. apply elem_of_app in He as [He|[->|He]%elem_of_cons].
    + apply (IHl (FL c s e0 r :: ctx) He).
    + by exists ctx, c, s, l, r.
    + apply (IHr (FR c s e0 l :: ctx) He).
Qed.

(** The object of an entry of the tree holds its key and is not the
    sentinel. *)
Lemma Rep_ent (t : tree) W (e : @ent K) :
  Rep t W → e ∈ ents W →
  e_addr e ≠ nil ∧ n_key (rd t (e_addr e)) = Some (e_key e).
Proof.
  intros HR He.
  destruct (zipper_of_ent e W [] He) as (ctx & c & s & l & r & E).
  simpl in E. rewrite E in HR. split.
  - by eapply Rep_notnil.
  - by rewrite (Rep_read _ _ _ _ _ _ _ HR).
Qed.

Lemma Rep_min_node n (t : tree) : ∀ (X : @Tr K) ctx,
  Rep t (fill ctx X) → (length (ents X) < n)%nat →
  _min_node n t (ra X) = Ok (from_option e_addr nil (head (ents X))).
Proof.
  induction n as [|n IH]; intros X ctx HR Hn; [lia|].
  destruct X as [|c s e l r]; [done|].
  pose proof (Rep_notnil _ _ _ _ _ _ _ HR) as Hnn.
  pose proof (Rep_read _ _ _ _ _ _ _ HR) as Hrd.
  rewrite length_ents_N in Hn.
  simpl _min_node. rewrite (is_nil_ne _ Hnn). unfold left_. rewrite Hrd. simpl n_left.
  destruct l as [|cl sl el ll lr]; [done|].
  simpl ra.
  rewrite (is_nil_ne (e_addr el)) by (eapply (Rep_notnil t (FL c s e r :: ctx)), HR).
  simpl negb. simpl andb.
  assert (length (ents (N cl sl el ll lr)) < n)%nat as Hl by lia.
  pose proof (IH (N cl sl el ll lr) (FL c s e r :: ctx) HR Hl) as E.
  simpl ra in E. rewrite E.
  simpl ents. by destruct (ents ll).
Qed.

Lemma last_app_cons {A} (l1 : list A) x l2 : last (l1 ++ x :: l2) = last (x :: l2).
Proof.
  induction l1 as [|y l1 IH]; [done|]. simpl app.
  destruct (l1 ++ x :: l2) eqn:E; [by destruct l1|]. by rewrite <- IH.
Qed.

Lemma Rep_max_node n (t : tree) : ∀ (X : @Tr K) ctx,
  Rep t (fill ctx X) → (length (ents X) < n)%nat →
  _max_node n t (ra X) = Ok (from_option e_addr nil (last (ents X))).
Proof.
  induction n as [|n IH]; intros X ctx HR Hn; [lia|].
  destruct X as [|c s e l r]; [done|].
  pose proof (Rep_notnil _ _ _ _ _ _ _ HR) as Hnn.
  pose proof (Rep_read _ _ _ _ _ _ _ HR) as Hrd.
  rewrite length_ents_N in Hn.
  simpl _max_node. rewrite (is_nil_ne _ Hnn). unfold right_. rewrite Hrd. simpl n_right.
  simpl ents. rewrite last_app_cons.
  destruct r as [|cr sr er rl rr]; [done|].
  simpl ra.
  rewrite (is_nil_ne (e_addr er)) by (eapply (Rep_notnil t (FR c s e l :: ctx)), HR).
  simpl negb. simpl andb.
  assert (length (ents (N cr sr er rl rr)) < n)%nat as Hl by lia.
  pose proof (IH (N cr sr er rl rr) (FR c s e l :: ctx) HR Hl) as E.
  simpl ra in E. rewrite E.
  simpl ents.
  change (e :: ents rl ++ er :: ents rr) with ((e :: ents rl) ++ er :: ents rr).
  by rewrite (last_app_cons (e :: ents rl) er), (last_app_cons (ents rl) er).
Qed.

Lemma Rep_end_key (t : tree) W (o : option (@ent K)) :
  Rep t W → (∀ e, o = Some e → e ∈ ents W) →
  (let node := from_option e_addr nil o in
   if is_nil node then None else n_key (rd t node)) = e_key <$> o.
Proof.
  intros HR Ho. destruct o as [e|]; simpl; [|done].
  destruct (Rep_ent t W e HR (Ho e eq_refl)) as (Hnn & Hk).
  by rewrite (is_nil_ne _ Hnn).
Qed.

Lemma Inv_min_max (t : tree) W :
  Inv t W → min t = Ok (head (keys W)) ∧ max t = Ok (last (keys W)).
Proof.
  intros (HR & _). unfold min, max, keys.
  pose proof (Rep_length _ _ HR) as Hlen. unfold addrs in Hlen.
  rewrite length_fmap in Hlen.
  rewrite (R_root _ _ HR).
  rewrite (Rep_min_node _ t W [] HR) by (unfold fuel; lia).
  rewrite (Rep_max_node _ t W [] HR) by (unfold fuel; lia).
  rewrite !rbind_Ok. split; f_equal.
  - rewrite (Rep_end_key t W _ HR); [by destruct (ents W)|].
    intros e He. by apply head_Some_elem_of.
  - rewrite (Rep_end_key t W _ HR); [by rewrite fmap_last|].
    intros e He. by apply last_Some_elem_of.
Qed.

(** X5: on a tree built from [items], [min] and [max] are the first and the
    last element of the iteration, and [None] on the empty tree, whatever the
    comparisons of the keys answer. *)
Theorem min_max_after_inserts (items : list K) :
  ∃ t l, insert_all items empty = Ok t
         ∧ inorder t = Ok (Some <$> l)
         ∧ l ≡ₚ items
         ∧ min t = Ok (head l) ∧ max t = Ok (last l).
Proof.
  destruct (Inv_insert_all items empty L Inv_empty) as (t & W & Hrun & HI & Hp).
  destruct (Inv_min_max t W HI) as (Hmin & Hmax).
  exists t, (keys W). split_and!; [done|by apply Rep_inorder, HI|done..].
Qed.

(** ** The red-black balance *)

(** The number of black nodes down the left spine. *)
Fixpoint bh (X : @Tr K) : nat :=
  match X with
  | L => 0%nat
  | N c _ _ l _ => if c then bh l else S (bh l)
  end.

(** Both children of a node have the same black height, and a red node has
    black children. *)
Fixpoint rbok (X : @Tr K) : Prop :=
  match X with
  | L => True
  | N c _ _ l r =>
      bh l = bh r ∧ (c = RED → tcolor l = BLACK ∧ tcolor r = BLACK)
      ∧ rbok l ∧ rbok r
  end.

(** The same along a path, for a hole of black height [h] and colour [c]. *)
Fixpoint crb (ctx : list (@frame K)) (h : nat) (c : bool) : Prop :=
  match ctx with
  | [] => True
  | f :: ctx =>
      rbok (uncle f) ∧ bh (uncle f) = h
      ∧ (f_color f = RED → c = BLACK ∧ tcolor (uncle f) = BLACK)
      ∧ crb ctx (if f_color f then h else S h) (f_color f)
  end.

Lemma rbok_fill (ctx : list (@frame K)) X :
  rbok (fill ctx X) ↔ rbok X ∧ crb ctx (bh X) (tcolor X).
Proof.
  revert X. induction ctx as [|[c s e r|c s e l] ctx IH]; intros X; simpl.
  - tauto.
  - rewrite IH. simpl. split.
    + intros ((E & Hc & HX & Hr) & Hctx). split_and!; auto; try tauto.
    + intros (HX & Hr & E & Hc & Hctx). split_and!; auto; try tauto.
  - rewrite IH. simpl. split.
    + intros ((E & Hc & Hl & HX) & Hctx). rewrite E in Hctx.
      split_and!; auto; try tauto.
    + intros (HX & Hl & E & Hc & Hctx). rewrite E. split_and!; auto; try tauto.
Qed.

Lemma rbok_tcol_BLACK (X : @Tr K) : rbok X → rbok (tcol BLACK X).
Proof. destruct X; simpl; [done|]. intros (? & _ & ? & ?). by split_and!. Qed.

Lemma crb_black_parent (p : @frame K) ctx h c :
  crb (p :: ctx) h BLACK → f_color p = BLACK → crb (p :: ctx) h c.
Proof. simpl. intros (? & ? & _ & ?) E. split_and!; auto. rewrite E. done. Qed.

Lemma crb_resize (ctx : list (@frame K)) hs h c : crb (resize ctx hs) h c ↔ crb ctx h c.
Proof.
  revert hs h c. induction ctx as [|[cf s e r|cf s e l] ctx IH]; intros hs h c; simpl;
    [done|by rewrite IH..].
Qed.

(** The recolouring step moves the red node two levels up. *)
Lemma rbok_recolor (p g : @frame K) z h :
  rbok z → tcolor z = RED → bh z = h →
  f_color p = RED → f_color g = BLACK → tcolor (uncle g) = RED →
  rbok (uncle p) → bh (uncle p) = h → tcolor (uncle p) = BLACK →
  rbok (uncle g) → bh (uncle g) = h →
  let z' := plug (recolor_g g) (plug (fcol BLACK p) z) in
  rbok z' ∧ tcolor z' = RED ∧ bh z' = S h.
Proof.
  intros Hz Cz Bz Cp Cg Cu Hp Bp Cs Hu Bu.
  destruct (uncle g) as [|cu su eu ul ur] eqn:Eu; [done|].
  simpl in Cu, Hu, Bu. subst cu. unfold RED in Bu.
  destruct g as [cg sg eg y|cg sg eg y], p as [cp sp ep q|cp sp ep q];
    simpl in *; subst; simpl; unfold RED, BLACK in *;
    intuition (try congruence).
Qed.

(** The rotation step yields a black subtree of the same black height as
    the one it replaces. *)
Lemma rbok_ins_rot (p g : @frame K) z h :
  rbok z → tcolor z = RED → bh z = h →
  f_color p = RED → f_color g = BLACK → tcolor (uncle g) = BLACK →
  rbok (uncle p) → bh (uncle p) = h → tcolor (uncle p) = BLACK →
  rbok (uncle g) → bh (uncle g) = h →
  rbok (ins_rot p g z) ∧ tcolor (ins_rot p g z) = BLACK ∧ bh (ins_rot p g z) = S h.
Proof.
  intros Hz Cz Bz Cp Cg Cu Hp Bp Cs Hu Bu.
  destruct z as [|cz sz' ez zl zr]; [done|]. simpl in Cz. subst cz.
  destruct g as [cg sg eg y|cg sg eg y], p as [cp sp ep q|cp sp ep q];
    simpl in *; subst; simpl; unfold RED, BLACK in *;
    intuition (try congruence).
Qed.

Lemma ins_fix_eq (p g : @frame K) ctx z :
  ins_fix (p :: g :: ctx) z =
  if f_color p then
    if tcolor (uncle g)
    then ins_fix ctx (plug (recolor_g g) (plug (fcol BLACK p) z))
    else tcol BLACK (fill ctx (ins_rot p g z))
  else tcol BLACK (fill (p :: g :: ctx) z).
Proof. done. Qed.

Lemma rbok_ins_fix m : ∀ (ctx : list (@frame K)) z, (length ctx ≤ m)%nat →
  rbok z → tcolor z = RED → crb ctx (bh z) BLACK → root_black ctx →
  rbok (ins_fix ctx z).
Proof.
  induction m as [|m IH]; intros ctx z Hm Hz Cz Hc Hrb.
  - destruct ctx; [|simpl in Hm; lia]. simpl. by apply rbok_tcol_BLACK.
  - destruct ctx as [|p [|g ctx]].
    + simpl. by apply rbok_tcol_BLACK.
    + change (ins_fix [p] z) with (tcol BLACK (fill [p] z)).
      apply rbok_tcol_BLACK, rbok_fill. split; [done|].
      apply crb_black_parent; [done|]. exact Hrb.
    + rewrite ins_fix_eq. destruct (f_color p) eqn:Cp.
      2:{ apply rbok_tcol_BLACK, rbok_fill. split; [done|].
          by apply crb_black_parent. }
      destruct Hc as (Hp & Bp & Cs & Hp' & Bg & Cg & Hctx).
      destruct (Cs Cp) as (_ & Cs').
      rewrite Cp in *.
      assert (f_color g = BLACK) as Cg'.
      { destruct (f_color g) eqn:E; [|done]. by destruct (Cg eq_refl). }
      rewrite Cg' in Hctx. unfold BLACK in Hctx.
      destruct (tcolor (uncle g)) eqn:Cu.
      * destruct (rbok_recolor p g z (bh z)) as (H1 & H2 & H3); auto.
        apply IH; auto.
        -- simpl in Hm. lia.
        -- by rewrite H3.
        -- by eapply root_black_tail.
      * destruct (rbok_ins_rot p g z (bh z)) as (H1 & H2 & H3); auto.
        apply rbok_tcol_BLACK, rbok_fill. split; [done|]. by rewrite H2, H3.
Qed.

Lemma rbok_ins_tree key uid a (W : @Tr K) :
  rbok W → tcolor W = BLACK → rbok (ins_tree key uid a W).
Proof.
  intros Hs Hc. unfold ins_tree.
  apply (rbok_ins_fix _ _ _ (le_n _)); [done|done| |].
  - apply crb_resize. change W with (fill [] W) in Hs.
    rewrite <- (fill_descend key uid [] W) in Hs.
    by apply rbok_fill in Hs as (_ & Hs).
  - by apply root_black_resize, root_black_descend.
Qed.

Lemma rbok_insert_all items : ∀ (t : tree) W,
  Inv t W → rbok W →
  ∃ t' W', insert_all items t = Ok t' ∧ Inv t' W' ∧ rbok W'.
Proof.
  induction items as [|k items IH]; intros t W HI Hs; simpl.
  - by exists t, W.
  - destruct (Inv_insert k t W HI) as (t1 & -> & HI1). rewrite rbind_Ok.
    apply (IH _ _ HI1). apply rbok_ins_tree; [done|]. apply HI.
Qed.

(** The number of black nodes on every path from a node down to the
    sentinel, when it is the same on all of them. *)
Inductive black_height (t : tree) : addr → nat → Prop :=
| black_height_nil : black_height t nil 0
| black_height_node a n :
    a ≠ nil →
    black_height t (left_ t a) n → black_height t (right_ t a) n →
    black_height t a (if color_ t a then n else S n).

Lemma Rep_black_height (t : tree) : ∀ (X : @Tr K) ctx,
  Rep t (fill ctx X) → rbok X → black_height t (ra X) (bh X).
Proof.
  induction X as [|c s e l IHl r IHr]; intros ctx HR Hs; [constructor|].
  destruct Hs as (E & _ & Hl & Hr).
  pose proof (Rep_notnil _ _ _ _ _ _ _ HR) as Hnn.
  pose proof (Rep_read _ _ _ _ _ _ _ HR) as Hrd.
  pose proof (black_height_node t (e_addr e) (bh l) Hnn) as H.
  unfold left_, right_, color_ in H. rewrite Hrd in H. simpl in H.
  apply H.
  - apply (IHl (FL c s e r :: ctx)); auto.
  - rewrite E. apply (IHr (FR c s e l :: ctx)); auto.
Qed.

Lemma Rep_red_node (t : tree) W a :
  Rep t W → rbok W → a ∈ addrs W → color_ t a = RED →
  color_ t (left_ t a) = BLACK ∧ color_ t (right_ t a) = BLACK.
Proof.
  intros HR Hs Ha.
  destruct (zipper_of a W [] Ha) as (ctx & c & s & e & l & r & E & <-).
  simpl in E. rewrite E in *.
  apply rbok_fill in Hs as ((_ & Hc & _ & _) & _).
  unfold left_, right_, color_ at 1. rewrite (Rep_read _ _ _ _ _ _ _ HR). simpl.
  rewrite (Rep_color t (FL c s e r :: ctx) l HR).
  rewrite (Rep_color t (FR c s e l :: ctx) r HR). done.
Qed.

(** X10: a tree built by insertions is a red-black tree: its root is
    black, no red node has a red child, and every path from the root down to
    the sentinel crosses the same number of black nodes. *)
Theorem red_black_after_inserts (items : list K) :
  ∃ t, insert_all items empty = Ok t
       ∧ color_ t (root t) = BLACK
       ∧ (∀ a, reach t a → color_ t a = RED →
            color_ t (left_ t a) = BLACK ∧ color_ t (right_ t a) = BLACK)
       ∧ ∃ n, black_height t (root t) n.
Proof.
  destruct (rbok_insert_all items empty L Inv_empty I) as (t & W & Hrun & HI & Hs).
  destruct HI as (HR & _ & Hc & _).
  exists t. split_and!; [done| | |].
  - by rewrite (R_root _ _ HR), (Rep_color t [] W HR).
  - intros a Ha. eapply Rep_red_node; eauto using Rep_reach.
  - exists (bh W). rewrite (R_root _ _ HR). by apply (Rep_black_height t W []).
Qed.

(** ** The order of the keys *)

Section Order.
Context (ok : K → Prop) (HL : Lawful ok).

(** [a <= b], on the keys that the laws cover. *)
Definition kle (a b : K) : Prop := ok a ∧ ok b ∧ py_lt b a = false.

Lemma lt_asym a b : ok a → ok b → py_lt a b = true → py_lt b a = false.
Proof.
  intros Ha Hb Hab. destruct (py_lt b a) eqn:Hba; [|done].
  pose proof (law_trans ok HL a b a Ha Hb Ha Hab Hba) as H.
  by rewrite (law_irrefl ok HL a Ha) in H.
Qed.

Lemma kle_refl a : ok a → kle a a.
Proof. intros Ha. split_and!; auto. by apply (law_irrefl ok HL). Qed.

Lemma kle_trans a b c : kle a b → kle b c → kle a c.
Proof.
  intros (Ha & Hb & Hab) (_ & Hc & Hbc). split_and!; auto.
  destruct (py_lt c a) eqn:Hca; [|done].
  destruct (law_total ok HL a b Ha Hb) as [H|[->|H]].
  - pose proof (law_trans ok HL c a b Hc Ha Hb Hca H). congruence.
  - congruence.
  - congruence.
Qed.

Lemma kle_lt a b : ok a → ok b → py_lt a b = true → kle a b.
Proof. intros Ha Hb H. split_and!; auto. by apply lt_asym. Qed.

Lemma ent_lt_true key uid (e : @ent K) :
  ok key → ok (e_key e) → ent_lt key uid e = true → kle key (e_key e).
Proof.
  intros Hk He. unfold ent_lt. destruct (py_eq key (e_key e)) eqn:E.
  - apply (law_eq ok HL) in E as <-; auto. intros _. by apply kle_refl.
  - by apply kle_lt.
Qed.

Lemma ent_lt_false key uid (e : @ent K) :
  ok key → ok (e_key e) → ent_lt key uid e = false → kle (e_key e) key.
Proof.
  intros Hk He. unfold ent_lt. destruct (py_eq key (e_key e)) eqn:E.
  - apply (law_eq ok HL) in E as <-; auto. intros _. by apply kle_refl.
  - intros H. by split_and!.
Qed.

Definition sorted (X : @Tr K) : Prop :=
  StronglySorted kle (keys X) ∧ Forall ok (keys X).

Lemma keys_N c s (e : @ent K) l r :
  keys (N c s e l r) = keys l ++ e_key e :: keys r.
Proof. unfold keys. simpl. by rewrite fmap_app. Qed.

Lemma sorted_N c s (e : @ent K) l r :
  sorted (N c s e l r) →
  sorted l ∧ sorted r ∧ ok (e_key e)
  ∧ (∀ x, x ∈ keys l → kle x (e_key e))
  ∧ (∀ y, y ∈ keys r → kle (e_key e) y).
Proof.
  unfold sorted. rewrite keys_N. intros (Hs & Ho).
  apply Forall_app in Ho as (Hol & Ho). apply Forall_cons in Ho as (Hoe & Hor).
  apply StronglySorted_app in Hs as (Hx & Hsl & Hs).
  apply StronglySorted_cons in Hs as (Hr & Hsr).
  split_and!; auto.
  - intros x Hin. apply (Hx x (e_key e)); [done|left].
  - intros y Hin. by apply (proj1 (Forall_forall _ _) Hr).
Qed.

(** The keys on the left of the path of [insert] are [<= key], those on its
    right are [>= key]. *)
Lemma descend_bounds key uid : ok key → ∀ (X : @Tr K) ctx,
  sorted X →
  (∀ x, x ∈ lefts ctx → kle (e_key x) key) →
  (∀ y, y ∈ rights ctx → kle key (e_key y)) →
  (∀ x, x ∈ lefts (descend key uid ctx X) → kle (e_key x) key)
  ∧ (∀ y, y ∈ rights (descend key uid ctx X) → kle key (e_key y)).
Proof.
  intros Hk. induction X as [|c s e l IHl r IHr]; intros ctx Hs HL' HR'; [done|].
  apply sorted_N in Hs as (Hsl & Hsr & Hoe & Hle & Hre).
  simpl descend. destruct (ent_lt key uid e) eqn:E.
  - apply ent_lt_true in E; auto. apply IHl; auto.
    simpl. intros y [->|[Hy|Hy]%elem_of_app]%elem_of_cons; auto.
    eapply kle_trans; [exact E|]. apply Hre. unfold keys.
    by apply list_elem_of_fmap_2.
  - apply ent_lt_false in E; auto. apply IHr; auto.
    simpl. intros x [Hx|[Hx|Hx%list_elem_of_singleton]%elem_of_app]%elem_of_app; auto.
    + eapply kle_trans; [|exact E]. apply Hle. unfold keys.
      by apply list_elem_of_fmap_2.
    + by subst.
Qed.

Lemma sorted_ins_tree key uid a (W : @Tr K) :
  ok key → sorted W → sorted (ins_tree key uid a W).
Proof.
  intros Hk Hs.
  destruct (descend_bounds key uid Hk W [] Hs) as (HB1 & HB2);
    [intros x Hx; by apply elem_of_nil in Hx..|].
  destruct (ents_ins_tree key uid a W) as (E1 & E2).
  destruct Hs as (Hs & Ho). unfold sorted, keys in *.
  rewrite E1 in Hs, Ho. rewrite E2. rewrite fmap_app in *. simpl.
  apply Forall_app in Ho as (Ho1 & Ho2).
  apply StronglySorted_app in Hs as (Hx & Hs1 & Hs2).
  split.
  - apply StronglySorted_app_2; auto.
    + intros x1 x2 H1 [->|H2]%elem_of_cons; [|by apply Hx].
      apply list_elem_of_fmap in H1 as (y1 & -> & Hy1). by apply HB1.
    + apply StronglySorted_cons. split; [|done].
      apply Forall_forall. intros x (y & -> & Hy)%list_elem_of_fmap. auto.
  - apply Forall_app. split; [done|]. by apply Forall_cons.
Qed.

Lemma kle_py_le a b : kle a b → py_le a b = true.
Proof.
  intros (Ha & Hb & Hba). rewrite (law_le ok HL) by done.
  destruct (law_total ok HL a b Ha Hb) as [->|[->|H]]; [done| |congruence].
  rewrite (proj2 (law_eq ok HL b b Hb Hb) eq_refl). apply orb_true_r.
Qed.

Lemma StronglySorted_impl {A} (R1 R2 : relation A) l :
  (∀ x y, R1 x y → R2 x y) → StronglySorted R1 l → StronglySorted R2 l.
Proof.
  intros HR. induction 1 as [|x l Hs IH Hf]; constructor; auto.
  eapply Forall_impl; eauto.
Qed.

Lemma sorted_insert_all items : ∀ (t : tree) W,
  Inv t W → sorted W → Forall ok items →
  ∃ t' W', insert_all items t = Ok t' ∧ Inv t' W' ∧ sorted W'
           ∧ keys W' ≡ₚ keys W ++ items.
Proof.
  induction items as [|k items IH]; intros t W HI Hs Ho; simpl.
  - exists t, W. by rewrite app_nil_r.
  - apply Forall_cons in Ho as (Hk & Ho).
    destruct (Inv_insert k t W HI) as (t1 & -> & HI1). rewrite rbind_Ok.
    destruct (IH _ _ HI1 (sorted_ins_tree _ _ _ _ Hk Hs) Ho)
      as (t' & W' & Hrun & HI' & Hs' & Hp).
    exists t', W'. split_and!; [done..|].
    rewrite Hp, keys_ins_tree. simpl. apply Permutation_middle.
Qed.

Lemma sorted_L : sorted (@L K).
Proof. split; constructor. Qed.

(** X3: when the comparisons of the keys are those of a total order, the
    iteration over a tree built from [items] yields the items in
    non-decreasing order: it is their sorted snapshot. *)
Theorem iteration_sorted (items : list K) :
  Forall ok items →
  ∃ t l, insert_all items empty = Ok t
         ∧ inorder t = Ok (Some <$> l)
         ∧ l ≡ₚ items
         ∧ StronglySorted (λ a b, py_le a b = true) l.
Proof.
  intros Ho.
  destruct (sorted_insert_all items empty L Inv_empty sorted_L Ho)
    as (t & W & Hrun & HI & (Hs & _) & Hp).
  exists t, (keys W). split_and!; [done| |done|].
  - apply Rep_inorder, HI.
  - eapply StronglySorted_impl; [|exact Hs]. apply kle_py_le.
Qed.

(** *** Counting by key *)

Lemma cmp_key_cell op key c s (e : @ent K) l r p :
  cmp_key op key (cell c s e l r p) = Ok (op key (e_key e)).
Proof. done. Qed.

Lemma le_lt_trans a b c : kle a b → ok c → py_lt b c = true → py_lt a c = true.
Proof.
  intros (Ha & Hb & Hab) Hc Hbc.
  destruct (law_total ok HL a b Ha Hb) as [H|[->|H]]; [|done|congruence].
  by apply (law_trans ok HL a b c).
Qed.

Lemma lt_le_trans a b c : ok a → py_lt a b = true → kle b c → py_lt a c = true.
Proof.
  intros Ha Hab (Hb & Hc & Hbc).
  destruct (law_total ok HL b c Hb Hc) as [H|[<-|H]]; [|done|congruence].
  by apply (law_trans ok HL a b c).
Qed.

Lemma py_le_kle a b : ok a → ok b → py_le a b = true ↔ kle a b.
Proof.
  intros Ha Hb. split; [|apply kle_py_le].
  rewrite (law_le ok HL) by done. intros [H|H]%orb_true_iff.
  - by apply kle_lt.
  - apply (law_eq ok HL) in H as ->; auto. by apply kle_refl.
Qed.

Lemma not_lt_kle a b : ok a → ok b → py_lt a b = false ↔ kle b a.
Proof. intros Ha Hb. split; [intros H; by split_and!|by intros (_ & _ & ?)]. Qed.

Lemma not_le_lt a b : ok a → ok b → py_le a b = false → py_lt b a = true.
Proof.
  intros Ha Hb H. destruct (py_lt b a) eqn:E; [done|].
  assert (kle a b) as Hk by (by split_and!).
  apply kle_py_le in Hk. congruence.
Qed.

Lemma filter_all {A} (P : A → Prop) `{∀ x, Decision (P x)} (l : list A) :
  (∀ x, x ∈ l → P x) → filter P l = l.
Proof.
  induction l as [|x l IH]; intros Hl; [done|].
  rewrite filter_cons_True by (apply Hl; left).
  rewrite IH; [done|]. intros y Hy. apply Hl. by right.
Qed.

Lemma filter_none {A} (P : A → Prop) `{∀ x, Decision (P x)} (l : list A) :
  (∀ x, x ∈ l → ¬ P x) → filter P l = [].
Proof.
  induction l as [|x l IH]; intros Hl; [done|].
  rewrite filter_cons_False by (apply Hl; left).
  apply IH. intros y Hy. apply Hl. by right.
Qed.

Lemma length_filter_perm {A} (P : A → Prop) `{∀ x, Decision (P x)} (l1 l2 : list A) :
  l1 ≡ₚ l2 → length (filter P l1) = length (filter P l2).
Proof.
  induction 1 as [|x l1 l2 Hp IH|x y l|l1 l2 l3 H1 IH1 H2 IH2]; [done| | |congruence].
  - rewrite !filter_cons. destruct (decide (P x)); simpl; congruence.
  - rewrite !filter_cons. destruct (decide (P x)), (decide (P y)); done.
Qed.

Lemma keys_in_left c s (e : @ent K) l r :
  sorted (N c s e l r) → ∀ x, x ∈ keys l → kle x (e_key e).
Proof. intros Hs. apply sorted_N in Hs. naive_solver. Qed.

Lemma keys_in_right c s (e : @ent K) l r :
  sorted (N c s e l r) → ∀ y, y ∈ keys r → kle (e_key e) y.
Proof. intros Hs. apply sorted_N in Hs. naive_solver. Qed.

Lemma keys_ok (X : @Tr K) x : sorted X → x ∈ keys X → ok x.
Proof. intros (_ & Ho) Hx. by apply (proj1 (Forall_forall _ _) Ho). Qed.

Lemma length_keys (X : @Tr K) : length (keys X) = length (ents X).
Proof. unfold keys. by rewrite length_fmap. Qed.

(** [_count_less_than] adds the number of keys below [key]. *)
Lemma Rep_count_less_than n (t : tree) key : ok key → ∀ (X : @Tr K) ctx count,
  Rep t (fill ctx X) → sized X → sorted X → (length (ents X) < n)%nat →
  _count_less_than n t key count (ra X)
  = Ok (count + Z.of_nat (length (filter (λ x, py_lt x key = true) (keys X)))).
Proof.
  intros Hk. induction n as [|n IH]; intros X ctx count HR Hz Hs Hn; [lia|].
  destruct X as [|c s e l r]; [simpl; f_equal; lia|].
  pose proof (Rep_notnil _ _ _ _ _ _ _ HR) as Hnn.
  pose proof (Rep_read _ _ _ _ _ _ _ HR) as Hrd.
  pose proof (Rep_size t (FL c s e r :: ctx) l HR) as Hsl.
  pose proof (keys_in_left _ _ _ _ _ Hs) as Hlo.
  pose proof (keys_in_right _ _ _ _ _ Hs) as Hhi.
  pose proof (sorted_N _ _ _ _ _ Hs) as (Hsl' & Hsr' & Hoe & _).
  apply sized_N_sz in Hz as (Hl & Hr & El).
  rewrite length_ents_N in Hn.
  simpl _count_less_than. rewrite (is_nil_ne _ Hnn).
  unfold left_, right_, size_ in *. rewrite Hrd, cmp_key_cell, rbind_Ok.
  simpl n_left. simpl n_right. rewrite keys_N, filter_app.
  destruct (py_le key (e_key e)) eqn:E.
  - apply py_le_kle in E; auto.
    rewrite (IH l (FL c s e r :: ctx)) by (done || lia).
    rewrite (filter_none _ (e_key e :: keys r)), app_nil_r; [done|].
    intros y Hy Hlt.
    assert (kle (e_key e) y) as Hey.
    { apply elem_of_cons in Hy as [->|Hy]; [by apply kle_refl|by apply Hhi]. }
    pose proof (kle_trans _ _ _ E Hey) as (_ & _ & Hc). congruence.
  - apply not_le_lt in E; auto.
    rewrite (IH r (FR c s e l :: ctx)) by (done || lia).
    rewrite (filter_all _ (keys l)), filter_cons_True by
      (done || (intros x Hx; eapply le_lt_trans; eauto)).
    rewrite Hsl, El, length_app, length_keys. simpl length.
    f_equal. lia.
Qed.

(** [_count_less_equal] adds the number of keys that [key] is not below. *)
Lemma Rep_count_less_equal n (t : tree) key : ok key → ∀ (X : @Tr K) ctx count,
  Rep t (fill ctx X) → sized X → sorted X → (length (ents X) < n)%nat →
  _count_less_equal n t key count (ra X)
  = Ok (count + Z.of_nat (length (filter (λ x, py_lt key x = false) (keys X)))).
Proof.
  intros Hk. induction n as [|n IH]; intros X ctx count HR Hz Hs Hn; [lia|].
  destruct X as [|c s e l r]; [simpl; f_equal; lia|].
  pose proof (Rep_notnil _ _ _ _ _ _ _ HR) as Hnn.
  pose proof (Rep_read _ _ _ _ _ _ _ HR) as Hrd.
  pose proof (Rep_size t (FL c s e r :: ctx) l HR) as Hsl.
  pose proof (keys_in_left _ _ _ _ _ Hs) as Hlo.
  pose proof (keys_in_right _ _ _ _ _ Hs) as Hhi.
  pose proof (sorted_N _ _ _ _ _ Hs) as (Hsl' & Hsr' & Hoe & _).
  apply sized_N_sz in Hz as (Hl & Hr & El).
  rewrite length_ents_N in Hn.
  simpl _count_less_equal. rewrite (is_nil_ne _ Hnn).
  unfold left_, right_, size_ in *. rewrite Hrd, cmp_key_cell, rbind_Ok.
  simpl n_left. simpl n_right. rewrite keys_N, filter_app.
  destruct (py_lt key (e_key e)) eqn:E.
  - rewrite (IH l (FL c s e r :: ctx)) by (done || lia).
    rewrite (filter_none _ (e_key e :: keys r)), app_nil_r; [done|].
    intros y Hy Hlt.
    assert (kle (e_key e) y) as Hey.
    { apply elem_of_cons in Hy as [->|Hy]; [by apply kle_refl|by apply Hhi]. }
    pose proof (lt_le_trans _ _ _ Hk E Hey). congruence.
  - rewrite (IH r (FR c s e l :: ctx)) by (done || lia).
    rewrite (filter_all _ (keys l)), filter_cons_True; [|done|].
    + rewrite Hsl, El, length_app, length_keys. simpl length.
      f_equal. lia.
    + intros x Hx. destruct (py_lt key x) eqn:Ex; [|done].
      pose proof (lt_le_trans _ _ _ Hk Ex (Hlo x Hx)). congruence.
Qed.

Lemma Inv_fuel (t : tree) W : Inv t W → (length (ents W) < fuel t)%nat.
Proof.
  intros (HR & _). pose proof (Rep_length _ _ HR) as Hlen. unfold addrs in Hlen.
  rewrite length_fmap in Hlen. unfold fuel. lia.
Qed.

Lemma Inv_rank (t : tree) W key :
  Inv t W → sorted W → ok key →
  rank key t = Ok (Z.of_nat (length (filter (λ x, py_lt x key = true) (keys W)))).
Proof.
  intros HI Hs Hk. pose proof (Inv_fuel _ _ HI) as Hf.
  destruct HI as (HR & _ & _ & _ & Hz). unfold rank. rewrite (R_root _ _ HR).
  by rewrite (Rep_count_less_than _ t key Hk W [] 0 HR Hz Hs Hf).
Qed.

(** X6: when the comparisons of the keys are those of a total order,
    [rank key] on a tree built from [items] is the number of items strictly
    below [key]. *)
Theorem rank_counts_smaller (items : list K) (key : K) :
  Forall ok items → ok key →
  ∃ t, insert_all items empty = Ok t
       ∧ rank key t
         = Ok (Z.of_nat (length (filter (λ x, py_lt x key = true) items))).
Proof.
  intros Ho Hk.
  destruct (sorted_insert_all items empty L Inv_empty sorted_L Ho)
    as (t & W & Hrun & HI & Hs & Hp).
  exists t. split; [done|]. rewrite (Inv_rank t W key HI Hs Hk).
  simpl in Hp. by rewrite (length_filter_perm _ _ _ Hp).
Qed.

Lemma count_between lo hi (l : list K) :
  Forall ok l → kle lo hi →
  Z.of_nat (length (filter (λ x, py_lt hi x = false) l))
  - Z.of_nat (length (filter (λ x, py_lt x lo = true) l))
  = Z.of_nat (length (filter (λ x, py_le lo x = true ∧ py_le x hi = true) l)).
Proof.
  intros Ho Hlh. pose proof Hlh as (Hlo & Hhi & _).
  induction Ho as [|x l Hx Ho IH]; [done|].
  rewrite !filter_cons.
  destruct (py_lt x lo) eqn:E2.
  - assert (py_lt hi x = false) as E1.
    { destruct (py_lt hi x) eqn:E; [|done].
      pose proof (law_trans ok HL hi x lo Hhi Hx Hlo E E2). destruct Hlh. naive_solver. }
    assert (py_le lo x = false) as E3.
    { destruct (py_le lo x) eqn:E; [|done].
      apply py_le_kle in E as (_ & _ & E); auto. congruence. }
    rewrite E1, E3.
    destruct (decide (false = false)); [|done].
    destruct (decide (true = true)); [|done].
    destruct (decide (false = true ∧ _)) as [[? _]|]; [done|].
    simpl length. lia.
  - assert (py_le lo x = true) as E3.
    { apply py_le_kle; auto. by split_and!. }
    rewrite E3. destruct (decide (false = true)); [done|].
    destruct (py_lt hi x) eqn:E1.
    + assert (py_le x hi = false) as E4.
      { destruct (py_le x hi) eqn:E; [|done].
        apply py_le_kle in E as (_ & _ & E); auto. congruence. }
      rewrite E4. destruct (decide (true = false)); [done|].
      destruct (decide (true = true ∧ false = true)) as [[_ ?]|]; [done|]. done.
    + assert (py_le x hi = true) as E4.
      { apply py_le_kle; auto. by split_and!. }
      rewrite E4. destruct (decide (false = false)); [|done].
      destruct (decide (true = true ∧ true = true)); [|naive_solver].
      simpl length. lia.
Qed.

(** X7: when the comparisons of the keys are those of a total order,
    [count_range lo hi] on a tree built from [items] is the number of items
    [x] with [lo <= x <= hi]; it is 0 when [lo > hi]. *)
Theorem count_range_counts (items : list K) (lo hi : K) :
  Forall ok items → ok lo → ok hi →
  ∃ t, insert_all items empty = Ok t
       ∧ count_range lo hi t
         = Ok (Z.of_nat (length (filter
                 (λ x, py_le lo x = true ∧ py_le x hi = true) items))).
Proof.
  intros Ho Hlo Hhi.
  destruct (sorted_insert_all items empty L Inv_empty sorted_L Ho)
    as (t & W & Hrun & HI & Hs & Hp).
  exists t. split; [done|]. unfold count_range.
  rewrite (law_gt ok HL) by done.
  destruct (py_lt hi lo) eqn:E.
  - rewrite filter_none; [done|]. intros x Hx (H1 & H2).
    pose proof (proj1 (Forall_forall _ _) Ho x Hx) as Hox.
    apply py_le_kle in H1, H2; auto.
    pose proof (kle_trans _ _ _ H1 H2) as (_ & _ & Hc). congruence.
  - pose proof (Inv_fuel _ _ HI) as Hf.
    fold (rank lo t). rewrite (Inv_rank t W lo HI Hs Hlo).
    destruct HI as (HR & _ & _ & _ & Hz). rewrite (R_root _ _ HR).
    rewrite (Rep_count_less_equal _ t hi Hhi W [] 0 HR Hz Hs Hf).
    rewrite !rbind_Ok. f_equal. simpl in Hp.
    rewrite !(length_filter_perm _ _ _ Hp). rewrite Z.add_0_l.
    apply count_between; [done|by split_and!].
Qed.

(** *** The nearest keys *)

Definition or_else {A} (o d : option A) : option A :=
  match o with Some x => Some x | None => d end.

Lemma last_app_or {A} (l1 l2 : list A) : last (l1 ++ l2) = or_else (last l2) (last l1).
Proof. by rewrite last_app. Qed.

Lemma head_app_or {A} (l1 l2 : list A) : head (l1 ++ l2) = or_else (head l1) (head l2).
Proof. by destruct l1. Qed.

(** [floor] keeps the last key that [key] is not below. *)
Lemma Rep_floor_loop n (t : tree) key : ok key → ∀ (X : @Tr K) ctx candidate,
  Rep t (fill ctx X) → sorted X → (length (ents X) < n)%nat →
  floor_loop n t key candidate (ra X)
  = Ok (or_else (last (filter (λ x, py_lt key x = false) (keys X))) candidate).
Proof.
  intros Hk. induction n as [|n IH]; intros X ctx cand HR Hs Hn; [lia|].
  destruct X as [|c s e l r]; [done|].
  pose proof (Rep_notnil _ _ _ _ _ _ _ HR) as Hnn.
  pose proof (Rep_read _ _ _ _ _ _ _ HR) as Hrd.
  pose proof (keys_in_right _ _ _ _ _ Hs) as Hhi.
  pose proof (sorted_N _ _ _ _ _ Hs) as (Hsl' & Hsr' & Hoe & _).
  rewrite length_ents_N in Hn.
  simpl floor_loop. rewrite (is_nil_ne _ Hnn).
  unfold left_, right_ in *. rewrite Hrd, cmp_key_cell, rbind_Ok.
  simpl n_left. simpl n_right. simpl n_key. rewrite keys_N, filter_app.
  destruct (py_lt key (e_key e)) eqn:E.
  - rewrite (IH l (FL c s e r :: ctx)) by (done || lia).
    rewrite (filter_none _ (e_key e :: keys r)), app_nil_r; [done|].
    intros y Hy Hlt.
    assert (kle (e_key e) y) as Hey.
    { apply elem_of_cons in Hy as [->|Hy]; [by apply kle_refl|by apply Hhi]. }
    pose proof (lt_le_trans _ _ _ Hk E Hey). congruence.
  - rewrite (IH r (FR c s e l :: ctx)) by (done || lia).
    rewrite filter_cons_True by done.
    rewrite last_app_or, last_cons.
    by destruct (last (filter _ (keys r))).
Qed.

(** [ceiling] keeps the first key that is not below [key]. *)
Lemma Rep_ceiling_loop n (t : tree) key : ok key → ∀ (X : @Tr K) ctx candidate,
  Rep t (fill ctx X) → sorted X → (length (ents X) < n)%nat →
  ceiling_loop n t key candidate (ra X)
  = Ok (or_else (head (filter (λ x, py_lt x key = false) (keys X))) candidate).
Proof.
  intros Hk. induction n as [|n IH]; intros X ctx cand HR Hs Hn; [lia|].
  destruct X as [|c s e l r]; [done|].
  pose proof (Rep_notnil _ _ _ _ _ _ _ HR) as Hnn.
  pose proof (Rep_read _ _ _ _ _ _ _ HR) as Hrd.
  pose proof (keys_in_left _ _ _ _ _ Hs) as Hlo.
  pose proof (sorted_N _ _ _ _ _ Hs) as (Hsl' & Hsr' & Hoe & _).
  rewrite length_ents_N in Hn.
  simpl ceiling_loop. rewrite (is_nil_ne _ Hnn).
  unfold left_, right_ in *. rewrite Hrd, cmp_key_cell, rbind_Ok.
  simpl n_left. simpl n_right. simpl n_key. rewrite keys_N, filter_app.
  rewrite (law_gt ok HL) by done.
  destruct (py_lt (e_key e) key) eqn:E.
  - rewrite (IH r (FR c s e l :: ctx)) by (done || lia).
    rewrite (filter_none _ (keys l)), filter_cons_False; [done|congruence|].
    intros x Hx Hlt.
    pose proof (le_lt_trans _ _ _ (Hlo x Hx) Hk E). congruence.
  - rewrite (IH l (FL c s e r :: ctx)) by (done || lia).
    rewrite filter_cons_True by done.
    rewrite head_app_or. simpl.
    by destruct (head (filter _ (keys l))).
Qed.

Lemma sorted_last_max (l : list K) m :
  StronglySorted kle l → last l = Some m → ∀ x, x ∈ l → x = m ∨ kle x m.
Proof.
  induction 1 as [|y l Hs IH Hf]; intros Hm x Hx; [by apply elem_of_nil in Hx|].
  destruct l as [|z l'].
  - apply list_elem_of_singleton in Hx. simpl in Hm. left. congruence.
  - change (last (y :: z :: l')) with (last (z :: l')) in Hm.
    apply elem_of_cons in Hx as [->|Hx]; [|by apply IH].
    right. apply (proj1 (Forall_forall _ _) Hf). by apply last_Some_elem_of.
Qed.

Lemma sorted_head_min (l : list K) m :
  StronglySorted kle l → head l = Some m → ∀ x, x ∈ l → x = m ∨ kle m x.
Proof.
  intros Hs Hm x Hx. destruct Hs as [|y l Hs Hf]; [done|].
  simpl in Hm. injection Hm as ->.
  apply elem_of_cons in Hx as [->|Hx]; [by left|].
  right. by apply (proj1 (Forall_forall _ _) Hf).
Qed.

Lemma StronglySorted_filter_list {A} (R : relation A) (P : A → Prop)
    `{∀ x, Decision (P x)} (l : list A) :
  StronglySorted R l → StronglySorted R (filter P l).
Proof.
  induction 1 as [|x l Hs IH Hf]; [constructor|].
  rewrite filter_cons. destruct (decide (P x)); [|done].
  constructor; [done|]. apply Forall_forall. intros y (_ & Hy)%list_elem_of_filter.
  by apply (proj1 (Forall_forall _ _) Hf).
Qed.

(** X8: when the comparisons of the keys are those of a total order,
    [floor key] on a tree built from [items] is the greatest item [<= key],
    and [None] when every item is above [key]. *)
Theorem floor_greatest_below (items : list K) (key : K) :
  Forall ok items → ok key →
  ∃ t r, insert_all items empty = Ok t ∧ floor key t = Ok r
    ∧ match r with
      | Some m => m ∈ items ∧ py_le m key = true
                  ∧ ∀ x, x ∈ items → py_le x key = true → py_le x m = true
      | None => ∀ x, x ∈ items → py_lt key x = true
      end.
Proof.
  intros Ho Hk.
  destruct (sorted_insert_all items empty L Inv_empty sorted_L Ho)
    as (t & W & Hrun & HI & Hs & Hp).
  pose proof (Inv_fuel _ _ HI) as Hf. simpl in Hp.
  set (P := λ x, py_lt key x = false).
  exists t, (last (filter P (keys W))). split; [done|]. split.
  { destruct HI as (HR & _). unfold floor. rewrite (R_root _ _ HR).
    rewrite (Rep_floor_loop _ t key Hk W [] None HR Hs Hf).
    by destruct (last _). }
  destruct (last (filter P (keys W))) as [m|] eqn:E.
  - assert (m ∈ filter P (keys W)) as Hm by (by apply last_Some_elem_of).
    apply list_elem_of_filter in Hm as (HPm & Hm).
    pose proof (keys_ok _ _ Hs Hm) as Hom.
    split_and!.
    + by rewrite <- Hp.
    + apply py_le_kle; auto. by split_and!.
    + intros x Hx Hle. rewrite <- Hp in Hx.
      pose proof (keys_ok _ _ Hs Hx) as Hox.
      apply py_le_kle in Hle as Hxk; auto.
      destruct (sorted_last_max (filter P (keys W)) m) with (x := x) as [->|H]; auto.
      * apply StronglySorted_filter_list, Hs.
      * apply list_elem_of_filter. split; [|done]. by destruct Hxk as (_ & _ & ?).
      * apply kle_py_le. by apply kle_refl.
      * by apply kle_py_le.
  - intros x Hx. rewrite <- Hp in Hx. apply last_None in E.
    destruct (py_lt key x) eqn:Ex; [done|].
    exfalso. by eapply (filter_nil_not_elem_of P (keys W) x).
Qed.

(** X9: when the comparisons of the keys are those of a total order,
    [ceiling key] on a tree built from [items] is the least item [>= key],
    and [None] when every item is below [key]. *)
Theorem ceiling_least_above (items : list K) (key : K) :
  Forall ok items → ok key →
  ∃ t r, insert_all items empty = Ok t ∧ ceiling key t = Ok r
    ∧ match r with
      | Some m => m ∈ items ∧ py_le key m = true
                  ∧ ∀ x, x ∈ items → py_le key x = true → py_le m x = true
      | None => ∀ x, x ∈ items → py_gt key x = true
      end.
Proof.
  intros Ho Hk.
  destruct (sorted_insert_all items empty L Inv_empty sorted_L Ho)
    as (t & W & Hrun & HI & Hs & Hp).
  pose proof (Inv_fuel _ _ HI) as Hf. simpl in Hp.
  set (P := λ x, py_lt x key = false).
  exists t, (head (filter P (keys W))). split; [done|]. split.
  { destruct HI as (HR & _). unfold ceiling. rewrite (R_root _ _ HR).
    rewrite (Rep_ceiling_loop _ t key Hk W [] None HR Hs Hf).
    by destruct (head _). }
  destruct (head (filter P (keys W))) as [m|] eqn:E.
  - assert (m ∈ filter P (keys W)) as Hm by (by apply head_Some_elem_of).
    apply list_elem_of_filter in Hm as (HPm & Hm).
    pose proof (keys_ok _ _ Hs Hm) as Hom.
    split_and!.
    + by rewrite <- Hp.
    + apply py_le_kle; auto. by split_and!.
    + intros x Hx Hle. rewrite <- Hp in Hx.
      pose proof (keys_ok _ _ Hs Hx) as Hox.
      apply py_le_kle in Hle as Hxk; auto.
      destruct (sorted_head_min (filter P (keys W)) m) with (x := x) as [->|H]; auto.
      * apply StronglySorted_filter_list, Hs.
      * apply list_elem_of_filter. split; [|done]. by destruct Hxk as (_ & _ & ?).
      * apply kle_py_le. by apply kle_refl.
      * by apply kle_py_le.
  - intros x Hx. rewrite <- Hp in Hx. apply head_None in E.
    pose proof (keys_ok _ _ Hs Hx) as Hox.
    rewrite (law_gt ok HL) by done.
    destruct (py_lt x key) eqn:Ex; [done|].
    exfalso. by eapply (filter_nil_not_elem_of P (keys W) x).
Qed.

Lemma Inv_count_range (t : tree) W lo hi :
  Inv t W → sorted W → ok lo → ok hi →
  count_range lo hi t
  = Ok (Z.of_nat (length (filter
          (λ x, py_le lo x = true ∧ py_le x hi = true) (keys W)))).
Proof.
  intros HI Hs Hlo Hhi. unfold count_range.
  rewrite (law_gt ok HL) by done.
  destruct (py_lt hi lo) eqn:E.
  - rewrite filter_none; [done|]. intros x Hx (H1 & H2).
    pose proof (keys_ok _ _ Hs Hx) as Hox.
    apply py_le_kle in H1, H2; auto.
    pose proof (kle_trans _ _ _ H1 H2) as (_ & _ & Hc). congruence.
  - pose proof (Inv_fuel _ _ HI) as Hf.
    fold (rank lo t). rewrite (Inv_rank t W lo HI Hs Hlo).
    destruct HI as (HR & _ & _ & _ & Hz). rewrite (R_root _ _ HR).
    rewrite (Rep_count_less_equal _ t hi Hhi W [] 0 HR Hz Hs Hf).
    rewrite !rbind_Ok. f_equal. rewrite Z.add_0_l.
    apply count_between; [by destruct Hs|by split_and!].
Qed.

End Order.

End Refine.

Lemma Z_lawful : Lawful (λ _ : Z, True).
Proof.
  split; simpl; intros.
  - apply Z.eqb_eq.
  - apply Z.ltb_irrefl.
  - apply Z.ltb_lt. apply Z.ltb_lt in H2, H3. lia.
  - destruct (Z.lt_trichotomy a b) as [?|[?|?]]; [left|right; left|right; right];
      try done; by apply Z.ltb_lt.
  - lia.
  - lia.
Qed.

Lemma iteration_sorted_witness :
  ∃ t l, insert_all [5; 1; 3; 3; 9] empty = Ok t
         ∧ inorder t = Ok (Some <$> l)
         ∧ l ≡ₚ [5; 1; 3; 3; 9]
         ∧ StronglySorted (λ a b, py_le a b = true) l.
Proof.
  apply (iteration_sorted (λ _ : Z, True) Z_lawful [5; 1; 3; 3; 9]).
  repeat constructor.
Defined.

Lemma rank_counts_smaller_witness :
  ∃ t, insert_all [5; 1; 3; 3; 9] empty = Ok t
       ∧ rank 3 t
         = Ok (Z.of_nat (length (filter (λ x, py_lt x 3 = true) [5; 1; 3; 3; 9]))).
Proof.
  apply (rank_counts_smaller (λ _ : Z, True) Z_lawful [5; 1; 3; 3; 9] 3);
    [repeat constructor|done].
Defined.

Lemma count_range_counts_witness :
  ∃ t, insert_all [5; 1; 3; 3; 9] empty = Ok t
       ∧ count_range 3 5 t
         = Ok (Z.of_nat (length (filter
                 (λ x, py_le 3 x = true ∧ py_le x 5 = true) [5; 1; 3; 3; 9]))).
Proof.
  apply (count_range_counts (λ _ : Z, True) Z_lawful [5; 1; 3; 3; 9] 3 5);
    [repeat constructor|done|done].
Defined.

Lemma floor_greatest_below_witness :
  ∃ t r, insert_all [5; 1; 3; 3; 9] empty = Ok t ∧ floor 4 t = Ok r
    ∧ match r with
      | Some m => m ∈ [5; 1; 3; 3; 9] ∧ py_le m 4 = true
                  ∧ ∀ x, x ∈ [5; 1; 3; 3; 9] → py_le x 4 = true → py_le x m = true
      | None => ∀ x, x ∈ [5; 1; 3; 3; 9] → py_lt 4 x = true
      end.
Proof.
  apply (floor_greatest_below (λ _ : Z, True) Z_lawful [5; 1; 3; 3; 9] 4);
    [repeat constructor|done].
Defined.

Lemma ceiling_least_above_witness :
  ∃ t r, insert_all [5; 1; 3; 3; 9] empty = Ok t ∧ ceiling 4 t = Ok r
    ∧ match r with
      | Some m => m ∈ [5; 1; 3; 3; 9] ∧ py_le 4 m = true
                  ∧ ∀ x, x ∈ [5; 1; 3; 3; 9] → py_le 4 x = true → py_le m x = true
      | None => ∀ x, x ∈ [5; 1; 3; 3; 9] → py_gt 4 x = true
      end.
Proof.
  apply (ceiling_least_above (λ _ : Z, True) Z_lawful [5; 1; 3; 3; 9] 4);
    [repeat constructor|done].
Defined.

(*GHOST*)
End OSTree.

(** * The link buffer ([src/buffer.py]) *)

(** ** Timestamps

    A date field of a record is a string.  pandas either reads it as an
    instant (nanoseconds since the epoch; the strings carry a UTC offset),
    or reads the empty string as [NaT], or cannot parse it. *)

Inductive raw_date := NoDate | BadDate | Date (ns : Z).

Inductive stamp := NaT | At (ns : Z).

#[export] Instance stamp_eq_dec : EqDecision stamp.
Proof. solve_decision. Defined.

#[export] Instance stamp_countable : Countable stamp.
Proof.
  refine (inj_countable' (λ s, match s with NaT => None | At z => Some z end)
                         (λ o, match o with None => NaT | Some z => At z end) _).
  by intros [].
Defined.

(** Every comparison with [NaT] is false. *)
Definition ts_lt (a b : stamp) : bool :=
  match a, b with At x, At y => x <? y | _, _ => false end.
Definition ts_le (a b : stamp) : bool :=
  match a, b with At x, At y => x <=? y | _, _ => false end.
Definition ts_gt (a b : stamp) : bool :=
  match a, b with At x, At y => x >? y | _, _ => false end.

(** Equality of two items of a tuple: identity ([NaT] is one object) or [==]. *)
Definition ts_same (a b : stamp) : bool :=
  match a, b with
  | NaT, NaT => true
  | At x, At y => x =? y
  | _, _ => false
  end.

(** The keys of the buffer's tree are tuples [(timestamp, int)]. *)
#[export] Instance key_PyOrder : PyOrder (stamp * Z) := {|
  py_eq := λ '(a, i) '(b, j), ts_same a b && (i =? j);
  py_lt := λ '(a, i) '(b, j), if ts_same a b then i <? j else ts_lt a b;
  py_le := λ '(a, i) '(b, j), if ts_same a b then i <=? j else ts_le a b;
  py_gt := λ '(a, i) '(b, j), if ts_same a b then i >? j else ts_gt a b
|}.

(** [bool(s)] of a date string *)
Definition truthy (d : raw_date) : bool :=
  match d with NoDate => false | _ => true end.

(** [pd.to_datetime(d, utc=True, errors="coerce")] *)
Definition to_datetime_coerce (d : raw_date) : stamp :=
  match d with Date z => At z | _ => NaT end.

(** [pd.Timestamp(d)] *)
Definition pd_Timestamp (d : raw_date) : result stamp :=
  match d with
  | Date z => Ok (At z)
  | NoDate => Ok NaT
  | BadDate => Raise ValueError
  end.

(** 1970-01-01, 1969-01-01 and 2069-01-01, UTC *)
Definition epoch : stamp := At 0.
Definition min_timestamp : stamp := At (-31536000 * 1000000000).
Definition max_timestamp : stamp := At (3124224000 * 1000000000).

(** ** Records and sources ([src/nodes.py]) *)

Record Link := mkLink {
  link : string;
  title : string;
  _title : option string;
  created_date : raw_date;
  modified_date : raw_date
}.

Definition url (l : Link) : string := link l.

Definition set_title (l : Link) (t : string) : Link :=
  mkLink (link l) t (match _title l with None => Some t | Some o => Some o end)
         (created_date l) (modified_date l).

(** [Link.timestamp] *)
Definition timestamp (l : Link) : result stamp := pd_Timestamp (modified_date l).

(** A source: the fields of [User] the buffer reads, and the pages that
    [links_page] answers with. *)
Record User := mkUser {
  id : Z;
  first_name : string;
  last_name : string;
  last_online : raw_date;
  links_page : Z → list Link
}.

Definition name (u : User) : string :=
  if (String.length (last_name u) =? 0)%nat then first_name u
  else first_name u +:+ " " +:+ last_name u.

(** [link_timestamp] *)
Definition link_timestamp (l : Link) : stamp :=
  let ts := to_datetime_coerce
              (if truthy (modified_date l) then modified_date l
               else created_date l) in
  match ts with
  | NaT => epoch
  | _ => ts
  end.

(** ** Python dictionaries and [max] *)

Fixpoint dict_get {V} (k : Z) (d : list (Z * V)) : result V :=
  match d with
  | [] => Raise KeyError
  | (k', v) :: d => if k =? k' then Ok v else dict_get k d
  end.

Fixpoint dict_set {V} (k : Z) (v : V) (d : list (Z * V)) : list (Z * V) :=
  match d with
  | [] => [(k, v)]
  | (k', v') :: d => if k =? k' then (k, v) :: d else (k', v') :: dict_set k v d
  end.

(** [max]: the first item that no later item is greater than. *)
Fixpoint max_from {A} (gt : A → A → bool) (best : A) (l : list A) : A :=
  match l with
  | [] => best
  | x :: l => max_from gt (if gt x best then x else best) l
  end.

Definition py_max {A} (gt : A → A → bool) (l : list A) : result A :=
  match l with
  | [] => Raise ValueError
  | x :: l => Ok (max_from gt x l)
  end.

(** ** The buffer *)

Abbreviation key := (stamp * Z)%type.

Record LinkBuffer := mkBuffer {
  _user_data : list User;
  _tree : OSTree.tree key;
  _links_by_key : gmap key Link;
  _link_users : gmap string (list string);
  _next_key_id : Z;
  _explored_links : gset string;
  _user_cutoffs : list (Z * stamp);
  _max_user_cutoff : stamp;
  _max_user_id : Z;
  _user_pages : list (Z * Z);
  include_users : bool;
  (** the calls made to [links_page], latest first: (user id, page) *)
  fetched : list (Z * Z)
}.

Definition with_tree (b : LinkBuffer) (t : OSTree.tree key) : LinkBuffer :=
  mkBuffer (_user_data b) t (_links_by_key b) (_link_users b) (_next_key_id b)
    (_explored_links b) (_user_cutoffs b) (_max_user_cutoff b) (_max_user_id b)
    (_user_pages b) (include_users b) (fetched b).
Definition with_links_by_key (b : LinkBuffer) (m : gmap key Link) : LinkBuffer :=
  mkBuffer (_user_data b) (_tree b) m (_link_users b) (_next_key_id b)
    (_explored_links b) (_user_cutoffs b) (_max_user_cutoff b) (_max_user_id b)
    (_user_pages b) (include_users b) (fetched b).
Definition with_link_users (b : LinkBuffer) (m : gmap string (list string)) : LinkBuffer :=
  mkBuffer (_user_data b) (_tree b) (_links_by_key b) m (_next_key_id b)
    (_explored_links b) (_user_cutoffs b) (_max_user_cutoff b) (_max_user_id b)
    (_user_pages b) (include_users b) (fetched b).
Definition with_next_key_id (b : LinkBuffer) (n : Z) : LinkBuffer :=
  mkBuffer (_user_data b) (_tree b) (_links_by_key b) (_link_users b) n
    (_explored_links b) (_user_cutoffs b) (_max_user_cutoff b) (_max_user_id b)
    (_user_pages b) (include_users b) (fetched b).
Definition with_explored_links (b : LinkBuffer) (s : gset string) : LinkBuffer :=
  mkBuffer (_user_data b) (_tree b) (_links_by_key b) (_link_users b) (_next_key_id b)
    s (_user_cutoffs b) (_max_user_cutoff b) (_max_user_id b)
    (_user_pages b) (include_users b) (fetched b).
Definition with_user_cutoffs (b : LinkBuffer) (d : list (Z * stamp)) : LinkBuffer :=
  mkBuffer (_user_data b) (_tree b) (_links_by_key b) (_link_users b) (_next_key_id b)
    (_explored_links b) d (_max_user_cutoff b) (_max_user_id b)
    (_user_pages b) (include_users b) (fetched b).
Definition with_max (b : LinkBuffer) (c : stamp) (i : Z) : LinkBuffer :=
  mkBuffer (_user_data b) (_tree b) (_links_by_key b) (_link_users b) (_next_key_id b)
    (_explored_links b) (_user_cutoffs b) c i
    (_user_pages b) (include_users b) (fetched b).
Definition with_user_pages (b : LinkBuffer) (d : list (Z * Z)) : LinkBuffer :=
  mkBuffer (_user_data b) (_tree b) (_links_by_key b) (_link_users b) (_next_key_id b)
    (_explored_links b) (_user_cutoffs b) (_max_user_cutoff b) (_max_user_id b)
    d (include_users b) (fetched b).
Definition with_fetched (b : LinkBuffer) (l : list (Z * Z)) : LinkBuffer :=
  mkBuffer (_user_data b) (_tree b) (_links_by_key b) (_link_users b) (_next_key_id b)
    (_explored_links b) (_user_cutoffs b) (_max_user_cutoff b) (_max_user_id b)
    (_user_pages b) (include_users b) l.

(** [{user.id: pd.Timestamp(user.last_online) for user in users}] *)
Fixpoint cutoffs_of (users : list User) (d : list (Z * stamp)) : result (list (Z * stamp)) :=
  match users with
  | [] => Ok d
  | u :: users =>
      ts ←ᵣ pd_Timestamp (last_online u);
      cutoffs_of users (dict_set (id u) ts d)
  end.

(** The cutoff of each user, in the order of [users]: the keys that
    [max(self._user_data, key=...)] compares. *)
Fixpoint keyed (cutoffs : list (Z * stamp)) (users : list User) : result (list (User * stamp)) :=
  match users with
  | [] => Ok []
  | u :: users =>
      c ←ᵣ dict_get (id u) cutoffs;
      rest ←ᵣ keyed cutoffs users;
      Ok ((u, c) :: rest)
  end.

(** [max(self._user_data, key=lambda user: self._user_cutoffs[user.id])] *)
Definition max_user (cutoffs : list (Z * stamp)) (users : list User) : result User :=
  ks ←ᵣ keyed cutoffs users;
  m ←ᵣ py_max (λ x y : User * stamp, ts_gt (snd x) (snd y)) ks;
  Ok (fst m).

(** [LinkBuffer.__init__] *)
Definition init (users : list User) (include_users : bool) : result LinkBuffer :=
  cutoffs ←ᵣ cutoffs_of users [];
  max_cutoff ←ᵣ py_max ts_gt (snd <$> cutoffs);
  mu ←ᵣ max_user cutoffs users;
  Ok (mkBuffer users OSTree.empty ∅ ∅ 0 ∅ cutoffs max_cutoff (id mu)
        (fold_left (λ d u, dict_set (id u) 0 d) users []) include_users []).

Definition _update_user_cutoff (b : LinkBuffer) (updated_user_id : Z)
    (old_cutoff : stamp) : result LinkBuffer :=
  new_cutoff ←ᵣ dict_get updated_user_id (_user_cutoffs b);
  if (updated_user_id =? _max_user_id b) && ts_lt new_cutoff old_cutoff then
    mu ←ᵣ max_user (_user_cutoffs b) (_user_data b);
    c ←ᵣ dict_get (id mu) (_user_cutoffs b);
    Ok (with_max b c (id mu))
  else if ts_gt new_cutoff (_max_user_cutoff b) then
    Ok (with_max b new_cutoff updated_user_id)
  else Ok b.

(** [next(user for user in self._user_data if user.id == self._max_user_id)] *)
Definition next_user (b : LinkBuffer) : result User :=
  match filter (λ u, id u = _max_user_id b) (_user_data b) with
  | u :: _ => Ok u
  | [] => Raise StopIteration
  end.

Definition is_exhausted (b : LinkBuffer) : bool :=
  ts_le (_max_user_cutoff b) min_timestamp.

Definition n_between (b : LinkBuffer) (start_timestamp end_timestamp : stamp) : result Z :=
  if ts_gt start_timestamp end_timestamp then Ok 0
  else
    let lo_key := (start_timestamp, -1) in
    let hi_key := (end_timestamp, 2 ^ 63 - 1) in
    OSTree.count_range lo_key hi_key (_tree b).

Definition add_users_to_title (b : LinkBuffer) (l : Link) : result Link :=
  match _link_users b !! url l with
  | None => Raise KeyError
  | Some users =>
      let user_str := String.concat ", " users in
      let t := match _title l with Some t => t | None => title l end in
      Ok (set_title l (user_str +:+ " | " +:+ t))
  end.

Definition add_link (b : LinkBuffer) (l : Link) (user_name : string) : result LinkBuffer :=
  if decide (url l ∈ _explored_links b) then
    if include_users b then
      match _link_users b !! url l with
      | None => Raise KeyError
      | Some us => Ok (with_link_users b (<[url l := us ++ [user_name]]> (_link_users b)))
      end
    else Ok b
  else
    let k := (link_timestamp l, _next_key_id b) in
    let b := with_next_key_id b (_next_key_id b + 1) in
    t ←ᵣ OSTree.insert k (_tree b);
    let b := with_tree b t in
    let b := with_links_by_key b (<[k := l]> (_links_by_key b)) in
    let b := if include_users b
             then with_link_users b (<[url l := [user_name]]> (_link_users b))
             else b in
    Ok (with_explored_links b ({[url l]} ∪ _explored_links b)).

Fixpoint add_links (b : LinkBuffer) (links : list Link) (user_name : string) : result LinkBuffer :=
  match links with
  | [] => Ok b
  | l :: links => b ←ᵣ add_link b l user_name; add_links b links user_name
  end.

Definition process_next (b : LinkBuffer) : result LinkBuffer :=
  user ←ᵣ next_user b;
  page ←ᵣ dict_get (id user) (_user_pages b);
  let b := with_user_pages b (dict_set (id user) (page + 1) (_user_pages b)) in
  let links := links_page user page in
  let b := with_fetched b ((id user, page) :: fetched b) in
  old_cutoff ←ᵣ dict_get (id user) (_user_cutoffs b);
  new_cutoff ←ᵣ match last links with
                | None => Ok min_timestamp
                | Some l => timestamp l
                end;
  let b := with_user_cutoffs b (dict_set (id user) new_cutoff (_user_cutoffs b)) in
  b ←ᵣ _update_user_cutoff b (id user) old_cutoff;
  add_links b links (name user).

(** The loop of [pop_n]; [links] is built latest first. *)
Fixpoint pop_loop (fuel : nat) (b : LinkBuffer) (n : Z) (links : list Link)
    : result (list Link * LinkBuffer) :=
  match fuel with
  | O => Diverge
  | S fuel =>
      if (OSTree.len (_tree b) >? 0) && (Z.of_nat (length links) <? n) then
        let last_index := OSTree.len (_tree b) - 1 in
        k ←ᵣ OSTree.select last_index (_tree b);
        t ←ᵣ OSTree.remove_by_rank last_index (_tree b);
        let b := with_tree b t in
        match k with
        | None => Raise KeyError
        | Some k =>
            match _links_by_key b !! k with
            | None => Raise KeyError
            | Some l =>
                let b := with_links_by_key b (delete k (_links_by_key b)) in
                pop_loop fuel b n (links ++ [l])
            end
        end
      else Ok (links, b)
  end.

Fixpoint titles (b : LinkBuffer) (links : list Link) : result (list Link) :=
  match links with
  | [] => Ok []
  | l :: links =>
      l ←ᵣ add_users_to_title b l;
      rest ←ᵣ titles b links;
      Ok (l :: rest)
  end.

Definition pop_n (b : LinkBuffer) (n : Z) : result (list Link * LinkBuffer) :=
  '(links, b) ←ᵣ pop_loop (S (Z.to_nat (OSTree.len (_tree b)))) b n [];
  if include_users b then
    links ←ᵣ titles b links;
    Ok (links, b)
  else Ok (links, b).

(** The loop of [get_next_n]: it ends when the sources do, so its fuel is
    a parameter. *)
Fixpoint fetch_loop (fuel : nat) (b : LinkBuffer) (n : Z) : result LinkBuffer :=
  match fuel with
  | O => Diverge
  | S fuel =>
      if is_exhausted b then Ok b
      else
        c ←ᵣ n_between b (_max_user_cutoff b) max_timestamp;
        if c <? n then
          b ←ᵣ process_next b;
          fetch_loop fuel b n
        else Ok b
  end.

Definition get_next_n (fuel : nat) (b : LinkBuffer) (n : Z) : result (list Link * LinkBuffer) :=
  if (length (_user_data b) =? 0)%nat then Ok ([], b)
  else
    b ←ᵣ fetch_loop fuel b n;
    pop_n b n.

(** * Properties of the buffer on concrete sources *)

Section Scenario.

(** The two sources of the scenario: S1 (last online at 100) whose page 0
    holds a (100) and b (90), and S2 (last online at 95) whose page 0 holds
    c (95).  Titles, creation dates and the later pages are arbitrary. *)
Variables (ta tb tc : string) (ca cb cc : raw_date).
Variables (rest1 rest2 : Z → list Link).

Definition rec_a : Link := mkLink "a" ta None ca (Date 100).
Definition rec_b : Link := mkLink "b" tb None cb (Date 90).
Definition rec_c : Link := mkLink "c" tc None cc (Date 95).

Definition S1 : User :=
  mkUser 1 "S1" "" (Date 100) (λ p, if p =? 0 then [rec_a; rec_b] else rest1 p).
Definition S2 : User :=
  mkUser 2 "S2" "" (Date 95) (λ p, if p =? 0 then [rec_c] else rest2 p).

(** C2: over S1 and S2 the first [get_next_n(2)] returns a then c, having
    fetched page 0 of S1 and then page 0 of S2. *)
Theorem scenario_returns_a_c (include_users : bool) (fuel : nat) :
  ∃ links b b',
    init [S1; S2] include_users = Ok b
    ∧ get_next_n (3 + fuel) b 2 = Ok (links, b')
    ∧ url <$> links = ["a"; "c"]
    ∧ fetched b' = [(2, 0); (1, 0)].
Proof.
  destruct include_users.
  - eexists _, _, _. split; [reflexivity|].
    split; [vm_compute; reflexivity|]. split; reflexivity.
  - eexists _, _, _. split; [reflexivity|].
    split; [vm_compute; reflexivity|]. split; reflexivity.
Qed.

End Scenario.

(** C3: [__init__] takes [max] of the empty sequence of cutoffs, so a buffer
    cannot be built from no sources, although [get_next_n] has a guard for
    that case. *)
Theorem init_no_sources_raises (include_users : bool) :
  init [] include_users = Raise ValueError.
Proof. reflexivity. Qed.

(** The guard of [get_next_n]: a buffer without sources would return no
    records, for every [n]. *)
Lemma get_next_n_no_sources fuel b n :
  _user_data b = [] → get_next_n fuel b n = Ok ([], b).
Proof. intros Hu. unfold get_next_n. by rewrite Hu. Qed.

(** C7: a record whose date fields are both absent or unparseable gets the
    epoch as the timestamp of its key ... *)
Lemma link_timestamp_fallback l :
  modified_date l ∈ [NoDate; BadDate] → created_date l ∈ [NoDate; BadDate] →
  link_timestamp l = epoch.
Proof.
  unfold link_timestamp. intros Hm Hc.
  destruct (modified_date l), (created_date l); try done; set_solver.
Qed.

(** ... but the cutoff of its source is read with [Link.timestamp], which
    has no fallback: when such a record ends a page, [process_next] raises. *)
Definition undated : Link := mkLink "x" "x" None NoDate BadDate.
Definition undated_source : User :=
  mkUser 1 "A" "" (Date 100) (λ p, if p =? 0 then [undated] else []).

Theorem undated_record_raises (include_users : bool) (fuel : nat) :
  ∃ b, init [undated_source] include_users = Ok b
       ∧ link_timestamp undated = epoch
       ∧ process_next b = Raise ValueError
       ∧ get_next_n (S fuel) b 1 = Raise ValueError.
Proof.
  eexists. split; [reflexivity|]. split; [reflexivity|].
  split; destruct include_users; vm_compute; reflexivity.
Qed.

